(** * pretty_print_braces: the brace scanner, the bounded heap of the
      directory walk and the extension filter

    Shallow embedding of [scripts/pretty_print_braces/__main__.py].

    Python values are modelled as follows.
    - [int] is [Z] (unbounded).
    - [str] (a Python 2 byte string) is [list ascii]; iteration over a
      string visits its characters in order.
    - a [list] is a Rocq [list]; subscripting takes a [Z] index and follows
      Python: a negative index counts from the end, and an index outside
      [-len, len) raises [IndexError].
    - an exception is a value of [exn]; code that may raise returns a
      [result]. *)

From Stdlib Require Import ZArith Ascii String List Lia Bool.
From stdpp Require Import base tactics option numbers list strings sorting.

Local Open Scope Z_scope.

(** ** Python values and exceptions *)

Abbreviation str := (list ascii) (only parsing).

Definition s2l (s : string) : list ascii := list_ascii_of_string s.

(** [SyntaxError], [IndexError], [IOError], [OSError] and [re.error] are
    Python's.  The last two constructors are not Python exceptions:
    [LoopBound] marks a loop of the model that used up its iteration bound,
    and [Unsupported] a pattern outside the fragment of the [re] syntax
    that is modelled. *)
Inductive exn : Type :=
| SyntaxError
| IndexError
| IOError
| OSError
| ReError
| LoopBound
| Unsupported.

Inductive result (A : Type) : Type :=
| Ok (a : A)
| Raise (e : exn).
Arguments Ok {A} a.
Arguments Raise {A} e.

Definition rbind {A B} (k : A -> result B) (m : result A) : result B :=
  match m with
  | Ok a => k a
  | Raise e => Raise e
  end.

#[global] Instance result_ret : MRet result := fun A a => Ok a.
#[global] Instance result_bind : MBind result := fun A B k m => rbind k m.

(** [l[i]] and [l[i] = x] with Python's index rules. *)
Definition py_index (len : nat) (i : Z) : result nat :=
  if 0 <=? i then
    if i <? Z.of_nat len then Ok (Z.to_nat i) else Raise IndexError
  else
    if - Z.of_nat len <=? i then Ok (Z.to_nat (Z.of_nat len + i))
    else Raise IndexError.

Definition py_getitem {A} (l : list A) (i : Z) : result A :=
  n ← py_index (length l) i;
  match l !! n with
  | Some x => Ok x
  | None => Raise IndexError
  end.

Definition py_setitem {A} (l : list A) (i : Z) (x : A) : result (list A) :=
  n ← py_index (length l) i;
  Ok (<[n := x]> l).

(** [s * n] on strings: the empty string when [n <= 0]. *)
Definition str_mul (s : str) (n : Z) : str :=
  if n <=? 0 then [] else mjoin (replicate (Z.to_nat n) s).

(** [sep.join(xs)]. *)
Fixpoint str_join (sep : str) (xs : list str) : str :=
  match xs with
  | [] => []
  | [x] => x
  | x :: rest => x ++ sep ++ str_join sep rest
  end.

(** [l[1:]]. *)
Definition slice_from_1 {A} (l : list A) : list A := drop 1 l.

(** ** The scanner: [extract_braces] *)

Definition INDENT : str := str_mul (s2l " ") 4.

Definition lbrace : ascii := "{"%char.
Definition rbrace : ascii := "}"%char.

(** The tuple [(max_depth, depths, braces, filename)] returned by
    [extract_braces]. *)
Record analysis : Type := Analysis {
  max_depth : Z;
  depth_counts : list Z;
  rendered : list ascii;
  source_id : list ascii
}.

(** The closure [increment_depth_occurence] over the local list [depths]:
    the updated list is returned. *)
Definition increment_depth_occurence (depths : list Z) (d : Z)
  : result (list Z) :=
  if d <? Z.of_nat (length depths) then
    x ← py_getitem depths d;
    py_setitem depths d (x + 1)
  else Ok (depths ++ [1]).

(** The local variables of the loop. *)
Record scan_state : Type := ScanState {
  current_depth : Z;
  depths : list Z;
  braces : list (list ascii)
}.

Definition scan_init : scan_state :=
  {| current_depth := 0; depths := [0]; braces := [] |}.

(** One iteration of [for char in source_code], with the test of line 85
    read as the equality test [==] of the sibling branch on line 90.  The
    source spells it [char === '{'], which Python does not compile:
    [scan_step], [scan_loop] and [extract_braces] are the scanner as it
    would run with that one operator repaired, and
    [extract_braces_as_written] below is the scanner of the source. *)
Definition scan_step (quiet : bool) (st : scan_state) (char : ascii)
  : result scan_state :=
  if Ascii.eqb char lbrace then
    let braces1 :=
      if negb quiet
      then braces st ++ [str_mul INDENT (current_depth st) ++ [lbrace]]
      else braces st in
    let current_depth1 := current_depth st + 1 in
    depths1 ← increment_depth_occurence (depths st) current_depth1;
    Ok {| current_depth := current_depth1;
          depths := depths1;
          braces := braces1 |}
  else if Ascii.eqb char rbrace then
    let current_depth1 := current_depth st - 1 in
    let braces1 :=
      if negb quiet
      then braces st ++ [str_mul INDENT current_depth1 ++ [rbrace]]
      else braces st in
    Ok {| current_depth := current_depth1;
          depths := depths st;
          braces := braces1 |}
  else Ok st.

Fixpoint scan_loop (quiet : bool) (source_code : str) (st : scan_state)
  : result scan_state :=
  match source_code with
  | [] => Ok st
  | char :: rest =>
      st1 ← scan_step quiet st char;
      scan_loop quiet rest st1
  end.

Section Scanner.

(** [LINE_SEPARATOR = os.linesep], fixed by the platform. *)
Variable LINE_SEPARATOR : list ascii.

Definition extract_braces (source_code filename : str) (quiet : bool)
  : result analysis :=
  st ← scan_loop quiet source_code scan_init;
  Ok {| max_depth := Z.of_nat (length (depths st)) - 1;
        depth_counts := slice_from_1 (depths st);
        rendered := str_join LINE_SEPARATOR (braces st);
        source_id := filename |}.

(** *** The scanner as it is written

    Python compiles a file as a whole before it runs any statement of it.
    The comparison operators of the language are [==], [!=], [<], [>],
    [<=], [>=], [in], [is] and their negations; [===] is none of them, and
    the compiler stops at it with [SyntaxError]. *)
Inductive operator : Type :=
| EqEq       (* [==] *)
| EqEqEq.    (* [===] *)

Definition compile_operator (op : operator) : result unit :=
  match op with
  | EqEq => Ok tt
  | EqEqEq => Raise SyntaxError
  end.

(** The operators of the two tests of [extract_braces], on lines 85 and 90. *)
Definition line_85 : operator := EqEqEq.
Definition line_90 : operator := EqEq.

Definition extract_braces_as_written (source_code filename : str)
    (quiet : bool) : result analysis :=
  _ ← compile_operator line_85;
  _ ← compile_operator line_90;
  extract_braces source_code filename quiet.

End Scanner.


(** ** Python's ordering on the values that are compared

    [py_lt] is [<].  [==] on integers, strings, lists and tuples of them is
    structural equality, written with [decide]. *)

Class PyOrd (A : Type) := py_lt : A -> A -> bool.

#[global] Instance Z_pyord : PyOrd Z := Z.ltb.

(** Characters of a byte string compare by their ordinal. *)
#[global] Instance ascii_pyord : PyOrd ascii :=
  fun a b => (N_of_ascii a <? N_of_ascii b)%N.

(** Sequences: the first position where the items differ decides; if there
    is none the shorter sequence is the smaller. *)
Fixpoint list_lt {A} `{EqDecision A} `{PyOrd A} (l1 l2 : list A) : bool :=
  match l1, l2 with
  | [], [] => false
  | [], _ :: _ => true
  | _ :: _, [] => false
  | x :: l1', y :: l2' =>
      if decide (x = y) then list_lt l1' l2' else py_lt x y
  end.

#[global] Instance list_pyord {A} `{EqDecision A} `{PyOrd A} : PyOrd (list A) :=
  list_lt.

#[global] Instance analysis_eq_dec : EqDecision analysis.
Proof. solve_decision. Defined.

(** One component of a tuple comparison: it decides unless both sides
    agree on it, and then the components after it do. *)
Definition lex {A} `{EqDecision A} `{PyOrd A} (a1 a2 : A) (rest : bool)
  : bool :=
  if decide (a1 = a2) then rest else py_lt a1 a2.

(** Tuples of equal length: the first differing component decides. *)
#[global] Instance analysis_pyord : PyOrd analysis := fun a b =>
  lex (max_depth a) (max_depth b)
    (lex (depth_counts a) (depth_counts b)
       (lex (rendered a) (rendered b)
          (py_lt (source_id a) (source_id b)))).

(** [x <= y] as the heap proofs use it: not [y < x]. *)
Definition py_le {A} `{PyOrd A} (x y : A) : Prop := py_lt y x = false.

(** ** The [heapq] module

    The three functions the program calls, with the two sifting helpers,
    after the library's Python source.  Positions are never negative
    there, so they are [nat]; a position outside the list raises
    [IndexError] as in Python. *)

Module Heapq.
Section Defs.
Context {A : Type} `{PyOrd A}.

Definition getpos (heap : list A) (pos : nat) : result A :=
  match heap !! pos with
  | Some x => Ok x
  | None => Raise IndexError
  end.

Definition setpos (heap : list A) (pos : nat) (x : A) : result (list A) :=
  if decide (pos < length heap)%nat then Ok (<[pos := x]> heap)
  else Raise IndexError.

(** The [while pos > startpos] loop of [_siftdown] and the store after
    it; [fuel] bounds the iterations. *)
Fixpoint siftdown_loop (fuel : nat) (heap : list A) (startpos pos : nat)
    (newitem : A) : result (list A) :=
  if decide (startpos < pos)%nat then
    match fuel with
    | O => Raise LoopBound
    | S fuel' =>
        let parentpos := Nat.shiftr (pos - 1) 1 in
        parent ← getpos heap parentpos;
        if py_lt newitem parent then
          heap1 ← setpos heap pos parent;
          siftdown_loop fuel' heap1 startpos parentpos newitem
        else setpos heap pos newitem
    end
  else setpos heap pos newitem.

Definition _siftdown (heap : list A) (startpos pos : nat)
  : result (list A) :=
  newitem ← getpos heap pos;
  siftdown_loop pos heap startpos pos newitem.

(** The [while childpos < endpos] loop of [_siftup]: the smaller child
    moves up until a leaf is reached; returns the list and the leaf. *)
Fixpoint siftup_loop (fuel : nat) (heap : list A) (endpos pos : nat)
  : result (list A * nat) :=
  let childpos := (2 * pos + 1)%nat in
  if decide (childpos < endpos)%nat then
    match fuel with
    | O => Raise LoopBound
    | S fuel' =>
        let rightpos := (childpos + 1)%nat in
        childpos1 ←
          (if decide (rightpos < endpos)%nat then
             c ← getpos heap childpos;
             r ← getpos heap rightpos;
             Ok (if negb (py_lt c r) then rightpos else childpos)
           else Ok childpos);
        x ← getpos heap childpos1;
        heap1 ← setpos heap pos x;
        siftup_loop fuel' heap1 endpos childpos1
    end
  else Ok (heap, pos).

Definition _siftup (heap : list A) (pos : nat) : result (list A) :=
  let endpos := length heap in
  let startpos := pos in
  newitem ← getpos heap pos;
  '(heap1, pos1) ← siftup_loop endpos heap endpos pos;
  heap2 ← setpos heap1 pos1 newitem;
  _siftdown heap2 startpos pos1.

Definition heappush (heap : list A) (item : A) : result (list A) :=
  let heap1 := heap ++ [item] in
  _siftdown heap1 0 (length heap1 - 1).

(** [heap.pop()]: the last element and the list without it. *)
Definition list_pop (heap : list A) : result (A * list A) :=
  match last heap with
  | Some x => Ok (x, take (length heap - 1) heap)
  | None => Raise IndexError
  end.

(** Returns the popped item and the heap left. *)
Definition heappop (heap : list A) : result (A * list A) :=
  '(lastelt, heap1) ← list_pop heap;
  match heap1 with
  | [] => Ok (lastelt, heap1)
  | _ :: _ =>
      returnitem ← getpos heap1 0;
      heap2 ← setpos heap1 0 lastelt;
      heap3 ← _siftup heap2 0;
      Ok (returnitem, heap3)
  end.

(** Returns the item handed back and the heap left. *)
Definition heappushpop (heap : list A) (item : A) : result (A * list A) :=
  match heap with
  | [] => Ok (item, heap)
  | _ :: _ =>
      top ← getpos heap 0;
      if py_lt top item then
        heap1 ← setpos heap 0 item;
        heap2 ← _siftup heap1 0;
        Ok (top, heap2)
      else Ok (item, heap)
  end.

End Defs.
End Heapq.

(** ** The bounded heap of the directory walk

    The inner function [heappush] of [walk_through_directory], closed over
    [heap_max_size]; the item [heapq.heappushpop] hands back is dropped. *)
Definition heappush {A} `{PyOrd A} (heap_max_size : Z) (h : list A)
    (element : A) : result (list A) :=
  if Z.of_nat (length h) <? heap_max_size then Heapq.heappush h element
  else '(_, h1) ← Heapq.heappushpop h element; Ok h1.

(** ** The fragment of the [re] module the program uses

    A pattern is compiled to a [regex]; matching is by backtracking with a
    continuation, as the library's engine does, and [re.match] succeeds
    when some prefix of the subject matches. *)

Inductive atom : Type :=
| ALit (c : ascii)   (* a literal character *)
| AAny.              (* [.]: any character but a newline *)

Inductive regex : Type :=
| REmpty
| RAtom (a : atom)
| RPlus (a : atom)   (* [a+], greedy *)
| RBol               (* [^] *)
| REol               (* [$] *)
| RSeq (r1 r2 : regex)
| RAlt (r1 r2 : regex)
| RGroup (r : regex). (* [(r)] *)

Definition newline : ascii := "010"%char.

(** Lower-casing of the engine under [re.I] on byte strings: the letters
    [A]..[Z] only. *)
Definition ascii_lower (c : ascii) : ascii :=
  let n := N_of_ascii c in
  if ((65 <=? n) && (n <=? 90))%N then ascii_of_N (n + 32) else c.

Definition atom_match (a : atom) (c : ascii) : bool :=
  match a with
  | ALit x => bool_decide (ascii_lower x = ascii_lower c)
  | AAny => negb (bool_decide (c = newline))
  end.

(** [$] without [re.M]: at the end of the subject, or before a newline that
    ends it. *)
Definition at_end (s : str) : bool :=
  match s with
  | [] => true
  | [c] => bool_decide (c = newline)
  | _ => false
  end.

Fixpoint plus_match (a : atom) (pos : nat) (s : str)
    (k : nat -> str -> bool) : bool :=
  match s with
  | [] => false
  | c :: s' =>
      atom_match a c && (plus_match a (S pos) s' k || k (S pos) s')
  end.

(** [rmatch r pos s k]: [r] matches at offset [pos], where [s] is what is
    left of the subject, and [k] accepts the rest. *)
Fixpoint rmatch (r : regex) (pos : nat) (s : str)
    (k : nat -> str -> bool) : bool :=
  match r with
  | REmpty => k pos s
  | RAtom a =>
      match s with
      | [] => false
      | c :: s' => atom_match a c && k (S pos) s'
      end
  | RPlus a => plus_match a pos s k
  | RBol => bool_decide (pos = 0%nat) && k pos s
  | REol => at_end s && k pos s
  | RSeq r1 r2 => rmatch r1 pos s (fun pos' s' => rmatch r2 pos' s' k)
  | RAlt r1 r2 => rmatch r1 pos s k || rmatch r2 pos s k
  | RGroup r1 => rmatch r1 pos s k
  end.

(** [bool(re.match(pattern, string, re.I))] for a compiled pattern. *)
Definition re_match (r : regex) (s : str) : bool :=
  rmatch r 0 s (fun _ _ => true).

(** *** Compiling a pattern

    One pass over the pattern with a stack of open groups.  Each group
    holds the branches closed by [|] and the items of the branch being
    read. *)

Record frame : Type := Frame {
  f_alts : list regex;
  f_seq : list regex
}.

Definition empty_frame : frame := {| f_alts := []; f_seq := [] |}.

Fixpoint seq_of (rs : list regex) : regex :=
  match rs with
  | [] => REmpty
  | [r] => r
  | r :: rs' => RSeq r (seq_of rs')
  end.

Fixpoint alt_of (b : regex) (bs : list regex) : regex :=
  match bs with
  | [] => b
  | b' :: bs' => RAlt b (alt_of b' bs')
  end.

Definition close_frame (f : frame) : regex :=
  match f_alts f ++ [seq_of (f_seq f)] with
  | [] => REmpty
  | b :: bs => alt_of b bs
  end.

Definition push_item (f : frame) (r : regex) : frame :=
  {| f_alts := f_alts f; f_seq := f_seq f ++ [r] |}.

Definition next_branch (f : frame) : frame :=
  {| f_alts := f_alts f ++ [seq_of (f_seq f)]; f_seq := [] |}.

(** [+] applies to the item before it; the repetition of a group is not
    modelled. *)
Definition repeat_last (f : frame) : result frame :=
  match last (f_seq f) with
  | None => Raise ReError                      (* nothing to repeat *)
  | Some (RAtom a) =>
      Ok {| f_alts := f_alts f;
            f_seq := take (length (f_seq f) - 1) (f_seq f) ++ [RPlus a] |}
  | Some (RPlus _) => Raise ReError            (* multiple repeat *)
  | Some (RBol | REol) => Raise ReError        (* nothing to repeat *)
  | Some _ => Raise Unsupported
  end.

Definition is_alnum (c : ascii) : bool :=
  let n := N_of_ascii c in
  ((48 <=? n) && (n <=? 57) || (65 <=? n) && (n <=? 90)
   || (97 <=? n) && (n <=? 122))%N.

(** The special characters whose meaning is not modelled. *)
Definition unsupported_special (c : ascii) : bool :=
  bool_decide (c ∈ s2l "*?{}[]").

Fixpoint parse_loop (p : str) (top : frame) (stack : list frame)
  : result regex :=
  match p with
  | [] =>
      match stack with
      | [] => Ok (close_frame top)
      | _ :: _ => Raise ReError                (* missing parenthesis *)
      end
  | c :: p' =>
      if bool_decide (c = "("%char) then
        parse_loop p' empty_frame (top :: stack)
      else if bool_decide (c = ")"%char) then
        match stack with
        | [] => Raise ReError                  (* unbalanced parenthesis *)
        | parent :: stack' =>
            parse_loop p' (push_item parent (RGroup (close_frame top)))
              stack'
        end
      else if bool_decide (c = "|"%char) then
        parse_loop p' (next_branch top) stack
      else if bool_decide (c = "+"%char) then
        top1 ← repeat_last top;
        parse_loop p' top1 stack
      else if bool_decide (c = "\"%char) then
        match p' with
        | [] => Raise ReError                  (* bogus escape *)
        | c2 :: p'' =>
            if is_alnum c2 then Raise Unsupported
            else parse_loop p'' (push_item top (RAtom (ALit c2))) stack
        end
      else if bool_decide (c = "."%char) then
        parse_loop p' (push_item top (RAtom AAny)) stack
      else if bool_decide (c = "^"%char) then
        parse_loop p' (push_item top RBol) stack
      else if bool_decide (c = "$"%char) then
        parse_loop p' (push_item top REol) stack
      else if unsupported_special c then Raise Unsupported
      else parse_loop p' (push_item top (RAtom (ALit c))) stack
  end.

Definition re_compile (pattern : str) : result regex :=
  parse_loop pattern empty_frame [].

(** ** The directory walk *)

(** What the program sees of the file system: the triples
    [(dirpath, dirnames, filenames)] that [os.walk(rootpath)] yields, the
    entries [os.listdir(rootpath)] returns, and the text
    [open(filename, 'r').read()] returns. *)
Record filesystem : Type := FileSystem {
  os_walk : list ascii -> list (list ascii * list (list ascii) * list (list ascii));
  os_listdir : list ascii -> result (list (list ascii));
  open_read : list ascii -> result (list ascii)
}.

(** A computation of the walk: its outcome, and the files whose text was
    handed to [extract_braces], in order. *)
Record W (A : Type) : Type := MkW {
  scanned : list (list ascii);
  outcome : result A
}.
Arguments MkW {A} scanned outcome.
Arguments scanned {A} w.
Arguments outcome {A} w.

Definition wbind {A B} (k : A -> W B) (m : W A) : W B :=
  match outcome m with
  | Ok a => MkW (scanned m ++ scanned (k a)) (outcome (k a))
  | Raise e => MkW (scanned m) (Raise e)
  end.

#[global] Instance W_ret : MRet W := fun A a => MkW [] (Ok a).
#[global] Instance W_bind : MBind W := fun A B k m => wbind k m.

Definition lift {A} (r : result A) : W A := MkW [] r.
Definition scanning {A} (filename : list ascii) (r : result A) : W A :=
  MkW [filename] r.

(** [os.path.join(a, b)] of [posixpath]. *)
Definition os_path_join (a b : str) : str :=
  match b with
  | "/"%char :: _ => b
  | _ =>
      match last a with
      | None => b
      | Some "/"%char => a ++ b
      | Some _ => a ++ s2l "/" ++ b
      end
  end.

(** [s.split(sep)] for a separator of one character. *)
Fixpoint str_split (sep : ascii) (s : str) : list str :=
  match s with
  | [] => [[]]
  | c :: s' =>
      if bool_decide (c = sep) then [] :: str_split sep s'
      else
        match str_split sep s' with
        | [] => [[c]]
        | w :: ws => (c :: w) :: ws
        end
  end.

Definition file_extension_regex (file_extensions : list str) : str :=
  s2l "^.+\.(" ++ str_join (s2l "|") file_extensions ++ s2l ")$".

Definition file_extension_supported (file_extensions : list str)
    (filename : str) : result bool :=
  r ← re_compile (file_extension_regex file_extensions);
  Ok (re_match r filename).

(** The arguments of the [dir] subcommand. *)
Record dir_args : Type := DirArgs {
  path : list ascii;
  nonrecursive : bool;
  extensions : list ascii;
  n : Z;
  quiet : bool
}.

(** What is written to standard output. *)
Inductive printed : Type :=
| PrintStr (s : list ascii)
| PrintDepths (depths : list Z)
| PrintMaxDepth (max_depth : Z)
| PrintBlank.

Definition print_result (analysis_result : analysis) (quiet : bool)
  : list printed :=
  [PrintStr (source_id analysis_result)]
  ++ (if negb quiet then [PrintStr (rendered analysis_result)] else [])
  ++ [PrintDepths (depth_counts analysis_result);
      PrintMaxDepth (max_depth analysis_result)].

(** The functions of the module that are called by the walk.

    [analyze_file] scans with [extract_braces], whose line 85 Python does
    not compile; the walk is therefore defined over any function in the
    place of [analyze_file], and over any filter in the place of the local
    [file_extension_supported]: what is proved of it holds of the walk of
    the module whatever these two do, and whatever the scanner is once
    line 85 is repaired. *)
Section Walk.

(** [extension_filter file_extensions] stands for the local function
    [file_extension_supported], and [analyze] for [analyze_file]. *)
Variable extension_filter : list (list ascii) -> list ascii -> result bool.
Variable analyze : list ascii -> bool -> W analysis.
Variable fs : filesystem.

(** [process_directory] of [walk_through_directory]; the heap [h] it
    updates is passed in and returned. *)
Fixpoint process_directory (n : Z) (file_extensions : list str)
    (quiet : bool) (dirpath : str) (filenames : list str)
    (h : list analysis) : W (list analysis) :=
  match filenames with
  | [] => mret h
  | filename :: rest =>
      supported ← lift (extension_filter file_extensions filename);
      if negb supported then
        process_directory n file_extensions quiet dirpath rest h
      else
        let absolute_file_path := os_path_join dirpath filename in
        result ← analyze absolute_file_path quiet;
        h1 ← lift (heappush n h result);
        process_directory n file_extensions quiet dirpath rest h1
  end.

Fixpoint walk_dirs (n : Z) (file_extensions : list str) (quiet : bool)
    (dirs : list (str * list str * list str)) (h : list analysis)
  : W (list analysis) :=
  match dirs with
  | [] => mret h
  | (dirpath, _, filenames) :: rest =>
      h1 ← process_directory n file_extensions quiet dirpath filenames h;
      walk_dirs n file_extensions quiet rest h1
  end.

Definition walk_through_directory (rootpath : str) (recursive : bool)
    (n : Z) (file_extensions : list str) (quiet : bool)
  : W (list analysis) :=
  if recursive then
    walk_dirs n file_extensions quiet (os_walk fs rootpath) []
  else
    filenames ← lift (os_listdir fs rootpath);
    process_directory n file_extensions quiet rootpath filenames [].

End Walk.

(** The loop [for i in range(...)] of [pretty_print_dir]: the results
    popped, in the order they are printed. *)
Fixpoint drain (count : nat) (heap : list analysis)
  : result (list analysis) :=
  match count with
  | O => Ok []
  | S count' =>
      '(analysis_result, heap1) ← Heapq.heappop heap;
      rest ← drain count' heap1;
      Ok (analysis_result :: rest)
  end.

Definition print_all (results : list analysis) (quiet : bool)
  : list printed :=
  flat_map (fun r => print_result r quiet ++ [PrintBlank]) results.

(** Lines 205 to 208 of [pretty_print_dir]: what is printed from the heap
    the walk returned. *)
Definition report (heap : list analysis) (n : Z) (quiet : bool)
  : result (list printed) :=
  results ← drain (Z.to_nat (Z.min (Z.of_nat (length heap)) n)) heap;
  Ok (print_all results quiet).

Section DirMode.

Variable extension_filter : list (list ascii) -> list ascii -> result bool.
Variable analyze : list ascii -> bool -> W analysis.
Variable fs : filesystem.

Definition pretty_print_dir (args : dir_args) : W (list printed) :=
  heap ← walk_through_directory extension_filter analyze fs (path args)
            (negb (nonrecursive args)) (n args)
            (str_split ","%char (extensions args)) (quiet args);
  lift (report heap (n args) (quiet args)).

End DirMode.

(** The module's own [analyze_file], which calls the scanner as it is
    written. *)
Section Program.

Variable LINE_SEPARATOR : list ascii.
Variable fs : filesystem.

Definition analyze_file (filename : str) (quiet : bool) : W analysis :=
  content ← lift (open_read fs filename);
  scanning filename
    (extract_braces_as_written LINE_SEPARATOR content filename quiet).

End Program.

(** ** Reference notions for the scanner, after the specification *)

Definition count_char (c : ascii) (text : str) : Z :=
  Z.of_nat (length (filter (fun x => x = c) text)).

(** Nesting level at the end of [text]: the delimiters opened and not
    closed. *)
Definition depth_of (text : str) : Z :=
  count_char lbrace text - count_char rbrace text.

(** All prefixes of a text, the empty one and the text itself included. *)
Fixpoint prefixes (text : str) : list str :=
  match text with
  | [] => [[]]
  | c :: rest => [] :: map (cons c) (prefixes rest)
  end.

(** The greatest of a list of integers that are never below [0]. *)
Definition max_of (l : list Z) : Z := foldr Z.max 0 l.

(** The reference scanner: the greatest nesting level over the prefixes of
    the text. *)
Definition reference_max_depth (text : str) : Z :=
  max_of (map depth_of (prefixes text)).

(** Opening and closing delimiters are equal in number, and no prefix
    closes more than it opens. *)
Definition balanced (text : str) : bool :=
  bool_decide (count_char lbrace text = count_char rbrace text)
  && forallb (fun p => 0 <=? depth_of p) (prefixes text).

Definition py_sum (l : list Z) : Z := foldr Z.add 0 l.

(** Rendering does not feed back into the counters: a step taken quietly
    and one taken with rendering agree on the depth and the histogram, and
    the quiet one leaves the lines untouched. *)
Definition agree (s1 s2 : scan_state) : Prop :=
  current_depth s1 = current_depth s2 /\ depths s1 = depths s2.

Definition same_outcome (lines : list (list ascii))
    (r1 r2 : result scan_state) : Prop :=
  match r1, r2 with
  | Ok s1, Ok s2 => agree s1 s2 /\ braces s1 = lines
  | Raise e1, Raise e2 => e1 = e2
  | _, _ => False
  end.

(** Change of the nesting level caused by one character. *)
Definition delta (c : ascii) : Z :=
  if decide (c = lbrace) then 1 else if decide (c = rbrace) then -1 else 0.

(** Greatest nesting level over the prefixes of [rest] when the scan enters
    [rest] at level [d]. *)
Definition peak (d : Z) (rest : str) : Z :=
  max_of (map (fun p => d + depth_of p) (prefixes rest)).

(** The levels the opening delimiters of a text enter, in order, when the
    nesting level starts at [d]. *)
Fixpoint entered_from (d : Z) (text : str) : list Z :=
  match text with
  | [] => []
  | c :: rest =>
      if decide (c = lbrace) then (d + 1) :: entered_from (d + 1) rest
      else if decide (c = rbrace) then entered_from (d - 1) rest
      else entered_from d rest
  end.

Definition entered_levels (text : str) : list Z := entered_from 0 text.

(** [<] is a strict total order. *)
Class PyOrdLaws (A : Type) `{PyOrd A} : Prop := {
  py_lt_irrefl (x : A) : py_lt x x = false;
  py_lt_trans (x y z : A) :
    py_lt x y = true -> py_lt y z = true -> py_lt x z = true;
  py_lt_total (x y : A) : py_lt x y = false -> py_lt y x = false -> x = y
}.

(** ** Binary heaps in a list *)

Definition parent (i : nat) : nat := Nat.shiftr (i - 1) 1.

(** The item at position [i] is not below its parent. *)
Definition heap_at {A} `{PyOrd A} (h : list A) (i : nat) : Prop :=
  forall x p, (0 < i)%nat -> h !! i = Some x -> h !! parent i = Some p ->
    py_le p x.

Definition is_heap {A} `{PyOrd A} (h : list A) : Prop :=
  forall i, heap_at h i.

(** A heap but for the item at [pos], which is about to be overwritten. *)
Definition heap_except {A} `{PyOrd A} (h : list A) (pos : nat) : Prop :=
  forall i, i <> pos -> heap_at h i.

(** [v] may be stored at [pos]: the children of [pos] are not below [v],
    nor below the parent of [pos]. *)
Definition hole_ok {A} `{PyOrd A} (h : list A) (pos : nat) (v : A) : Prop :=
  forall c x, (0 < c)%nat -> parent c = pos -> h !! c = Some x ->
    py_le v x
    /\ ((0 < pos)%nat -> forall g, h !! parent pos = Some g -> py_le g x).

(** The state of the loop of [_siftup]: only the children of [pos] may be
    below their parent, and they are not below the parent of [pos]. *)
Definition sift_inv {A} `{PyOrd A} (h : list A) (pos : nat) : Prop :=
  (forall i, parent i <> pos -> heap_at h i)
  /\ ((0 < pos)%nat -> forall c x g, (0 < c)%nat -> parent c = pos ->
        h !! c = Some x -> h !! parent pos = Some g -> py_le g x).

(** The offers made to the bounded heap, from an empty heap. *)
Definition offer_all {A} `{PyOrd A} (heap_max_size : Z) (xs : list A)
  : result (list A) :=
  foldl (fun acc x => h ← acc; heappush heap_max_size h x) (Ok []) xs.

(** Two runs of the walk that differ in the capacity only: the same files
    were scanned, and both raised the same exception or both returned a
    heap. *)
Definition same_walk (w1 w2 : W (list analysis)) : Prop :=
  scanned w1 = scanned w2
  /\ match outcome w1, outcome w2 with
     | Ok h1, Ok h2 => is_heap h1 /\ is_heap h2
     | Raise e1, Raise e2 => e1 = e2
     | _, _ => False
     end.

(** ** Reference notions for the extension filter *)

(** Characters with no special meaning in a pattern. *)
Definition plain_char (c : ascii) : bool :=
  negb (bool_decide (c ∈ s2l "()|+\.^$*?{}[]")).

Definition plain_ext (e : str) : Prop := Forall (fun c => plain_char c = true) e.

(** The pattern of a literal text, and of a list of alternatives. *)
Definition lit_regex (e : str) : regex :=
  seq_of (map (fun c => RAtom (ALit c)) e).

Definition alt_list (bs : list regex) : regex :=
  match bs with
  | [] => REmpty
  | b :: bs' => alt_of b bs'
  end.

(** The compiled form of [file_extension_regex] when the extensions are
    plain. *)
Definition ext_regex (exts : list str) : regex :=
  RSeq RBol
    (RSeq (RPlus AAny)
       (RSeq (RAtom (ALit "."%char))
          (RSeq (RGroup (alt_list (map lit_regex exts))) REol))).

(** Equality of texts up to the case of letters. *)
Definition ci_eq (e body : str) : Prop :=
  map ascii_lower e = map ascii_lower body.

(** The file name ends with a dot followed by one of the extensions, up to
    case. *)
Definition ends_with_ext (exts : list str) (filename : str) : Prop :=
  exists e pre body,
    e ∈ exts /\ ci_eq e body /\ filename = pre ++ "."%char :: body.

(** The file names the filter selects: a non-empty part with no newline,
    a dot, one of the extensions up to case, and nothing more but for a
    newline that ends the name. *)
Definition selected_name (exts : list str) (filename : str) : Prop :=
  exists e pre body tail,
    e ∈ exts /\ ci_eq e body
    /\ filename = pre ++ "."%char :: body ++ tail
    /\ pre <> [] /\ (newline ∉ pre)
    /\ (tail = [] \/ tail = [newline]).

(** ** Reference notions for the rendering and for the walk *)

Definition is_brace (c : ascii) : bool :=
  bool_decide (c = lbrace) || bool_decide (c = rbrace).

(** A line of the rendering: four spaces per level, none below level
    zero, then the delimiter. *)
Definition indented (d : Z) (b : ascii) : str :=
  replicate (4 * Z.to_nat d) " "%char ++ [b].

(** The lines of the rendering of a text entered at level [d]: an opening
    delimiter is indented by the level it is met at, a closing one by the
    level it leaves the text at. *)
Fixpoint render_from (d : Z) (text : str) : list str :=
  match text with
  | [] => []
  | c :: rest =>
      if decide (c = lbrace) then indented d c :: render_from (d + 1) rest
      else if decide (c = rbrace) then
        indented (d - 1) c :: render_from (d - 1) rest
      else render_from d rest
  end.

(** The file [filename] of directory [dirpath] is one the walk comes
    across. *)
Definition listed (fs : filesystem) (rootpath : str) (recursive : bool)
    (dirpath filename : str) : Prop :=
  if recursive then
    exists dirnames filenames,
      (dirpath, dirnames, filenames) ∈ os_walk fs rootpath
      /\ filename ∈ filenames
  else
    dirpath = rootpath
    /\ exists filenames,
         os_listdir fs rootpath = Ok filenames /\ filename ∈ filenames.

(** A file system for the examples: the directory [src] holds [a.c],
    [README], [bb.h] and [c.c], with texts of different lengths; no other
    file can be read. *)
Definition example_tree : filesystem :=
  {| os_walk := fun rootpath =>
       [(rootpath, [], [s2l "a.c"; s2l "README"; s2l "bb.h"; s2l "c.c"])];
     os_listdir := fun _ =>
       Ok [s2l "a.c"; s2l "README"; s2l "bb.h"; s2l "c.c"];
     open_read := fun p =>
       if bool_decide (p = s2l "src/a.c") then Ok (s2l "{{}}")
       else if bool_decide (p = s2l "src/bb.h") then Ok (s2l "{{{{}}}}")
       else if bool_decide (p = s2l "src/c.c") then Ok (s2l "{}")
       else if bool_decide (p = s2l "src/README") then Ok (s2l "text")
       else Raise IOError |}.

(** The same directory with the broken link [d.c] listed in it. *)
Definition example_tree_broken : filesystem :=
  {| os_walk := fun rootpath =>
       [(rootpath, [], [s2l "a.c"; s2l "d.c"; s2l "c.c"])];
     os_listdir := fun _ => Ok [s2l "a.c"; s2l "d.c"; s2l "c.c"];
     open_read := open_read example_tree |}.

(** A file system in which the root does not exist: [os.walk], which
    ignores the errors of [os.scandir], yields nothing, and [os.listdir]
    raises [OSError]. *)
Definition missing_tree : filesystem :=
  {| os_walk := fun _ => [];
     os_listdir := fun _ => Raise OSError;
     open_read := fun _ => Raise IOError |}.

(** An analyzer for the examples.  It reads the file as [analyze_file]
    does; in the place of the scan it reports half the number of
    characters of the text as maximum depth, one brace at each depth, and
    the text itself as rendering. *)
Definition example_result (content filename : str) : analysis :=
  let d := Z.of_nat (length content) / 2 in
  Analysis d (replicate (Z.to_nat d) 1) content filename.

Definition example_analyze (fs : filesystem) (filename : str)
    (quiet : bool) : W analysis :=
  content ← lift (open_read fs filename);
  scanning filename (Ok (example_result content filename)).

(** A filter for the examples: the names that end with [.c] or [.h], two
    characters long at least. *)
Definition example_filter (file_extensions : list str) (filename : str)
  : result bool :=
  Ok (bool_decide (drop (length filename - 2) filename ∈ [s2l ".c"; s2l ".h"])).

(** The block [print_result] and the blank line after it, spelt out. *)
Definition block (quiet : bool) (r : analysis) : list printed :=
  if quiet then
    [PrintStr (source_id r); PrintDepths (depth_counts r);
     PrintMaxDepth (max_depth r); PrintBlank]
  else
    [PrintStr (source_id r); PrintStr (rendered r);
     PrintDepths (depth_counts r); PrintMaxDepth (max_depth r); PrintBlank].

(** * Properties of the scanner *)

Section ScannerFacts.

Lemma rbind_ok {A B} (m : result A) (k : A -> result B) (b : B) :
  m ≫= k = Ok b -> exists a, m = Ok a /\ k a = Ok b.
Proof. destruct m as [a|e]; simpl; [eauto | discriminate]. Qed.

Lemma py_index_ok len i n :
  py_index len i = Ok n -> (n < len)%nat.
Proof.
  unfold py_index. intros Hi.
  destruct (0 <=? i) eqn:E0.
  - destruct (i <? Z.of_nat len) eqn:E1; simplify_eq. lia.
  - destruct (- Z.of_nat len <=? i) eqn:E1; simplify_eq. lia.
Qed.

Lemma py_index_nonneg len i :
  0 <= i < Z.of_nat len -> py_index len i = Ok (Z.to_nat i).
Proof.
  intros [? ?]. unfold py_index.
  destruct (0 <=? i) eqn:E0; [|lia].
  destruct (i <? Z.of_nat len) eqn:E1; [done|lia].
Qed.

Lemma increment_length ds d ds' :
  increment_depth_occurence ds d = Ok ds' ->
  (length ds <= length ds')%nat.
Proof.
  unfold increment_depth_occurence.
  destruct (d <? Z.of_nat (length ds)); intros Hi.
  - apply rbind_ok in Hi as (x & _ & Hs). unfold py_setitem in Hs.
    apply rbind_ok in Hs as (k & _ & Hs). simplify_eq.
    by rewrite length_insert.
  - simplify_eq. rewrite length_app. simpl. lia.
Qed.

Lemma scan_step_length quiet st c st' :
  scan_step quiet st c = Ok st' ->
  (length (depths st) <= length (depths st'))%nat.
Proof.
  unfold scan_step. intros Hs.
  destruct (Ascii.eqb c lbrace).
  - apply rbind_ok in Hs as (ds & Hi & Hs). simplify_eq. simpl.
    by eapply increment_length.
  - destruct (Ascii.eqb c rbrace); by simplify_eq.
Qed.

Lemma scan_loop_length quiet text : forall st st',
  scan_loop quiet text st = Ok st' ->
  (length (depths st) <= length (depths st'))%nat.
Proof.
  induction text as [|c text IH]; intros st st' Hs; simpl in Hs.
  - by simplify_eq.
  - apply rbind_ok in Hs as (st1 & H1 & Hs).
    apply scan_step_length in H1. apply IH in Hs. lia.
Qed.

Lemma scan_step_quiet st1 st2 c :
  agree st1 st2 ->
  same_outcome (braces st1) (scan_step true st1 c) (scan_step false st2 c).
Proof.
  intros [Hd Hh]. unfold scan_step. rewrite Hd, Hh.
  destruct (Ascii.eqb c lbrace).
  - destruct (increment_depth_occurence _ _); simpl; [|done].
    by repeat split.
  - destruct (Ascii.eqb c rbrace); simpl; by repeat split.
Qed.

Lemma scan_loop_quiet text : forall st1 st2,
  agree st1 st2 ->
  same_outcome (braces st1)
    (scan_loop true text st1) (scan_loop false text st2).
Proof.
  induction text as [|c text IH]; intros st1 st2 Hag; simpl.
  - by split.
  - pose proof (scan_step_quiet st1 st2 c Hag) as Hstep.
    destruct (scan_step true st1 c) as [s1|e1],
             (scan_step false st2 c) as [s2|e2]; simpl in *; try done.
    destruct Hstep as [Hag' Hb]. rewrite <- Hb. by apply IH.
Qed.

End ScannerFacts.

Lemma count_char_cons c x text :
  count_char c (x :: text)
  = (if decide (x = c) then 1 else 0) + count_char c text.
Proof.
  unfold count_char. rewrite filter_cons.
  destruct (decide (x = c)); simpl; lia.
Qed.

Lemma count_char_nonneg c text : 0 <= count_char c text.
Proof. unfold count_char. lia. Qed.

Lemma depth_of_cons c text : depth_of (c :: text) = delta c + depth_of text.
Proof.
  unfold depth_of, delta. rewrite !count_char_cons.
  destruct (decide (c = lbrace)) as [->|?].
  - destruct (decide (lbrace = rbrace)); [done|lia].
  - destruct (decide (c = rbrace)); lia.
Qed.

Lemma depth_of_nil : depth_of [] = 0.
Proof. reflexivity. Qed.

Lemma prefixes_head text : exists ps, prefixes text = [] :: ps.
Proof. destruct text; simpl; eauto. Qed.

Lemma peak_cons d c rest :
  peak d (c :: rest) = Z.max d (peak (d + delta c) rest).
Proof.
  unfold peak. simpl. rewrite depth_of_nil, Z.add_0_r. f_equal.
  rewrite map_map. f_equal. apply map_ext. intros p.
  rewrite depth_of_cons. lia.
Qed.

Lemma peak_ge d rest : d <= peak d rest.
Proof.
  unfold peak. destruct (prefixes_head rest) as [ps ->]. simpl.
  rewrite depth_of_nil. lia.
Qed.

Lemma peak_nil d : 0 <= d -> peak d [] = d.
Proof. intros. unfold peak. simpl. rewrite depth_of_nil. lia. Qed.

Lemma reference_max_depth_peak text : reference_max_depth text = peak 0 text.
Proof. reflexivity. Qed.

Lemma py_sum_app l1 l2 : py_sum (l1 ++ l2) = py_sum l1 + py_sum l2.
Proof. induction l1 as [|x l1 IH]; simpl; [done|]. rewrite IH. lia. Qed.

Lemma py_sum_insert (l : list Z) k x y :
  l !! k = Some x -> py_sum (<[k := y]> l) = py_sum l - x + y.
Proof.
  revert k. induction l as [|a l IH]; intros [|k] Hk; simplify_eq/=.
  - lia.
  - rewrite (IH k Hk). lia.
Qed.

(** Entering a level at or above [1]: the histogram keeps its length or
    grows by one at its end, and the counts above level [0] gain one. *)
Lemma increment_positive ds d :
  1 <= d <= Z.of_nat (length ds) ->
  exists ds', increment_depth_occurence ds d = Ok ds'
    /\ Z.of_nat (length ds') - 1 = Z.max (Z.of_nat (length ds) - 1) d
    /\ py_sum (drop 1 ds') = py_sum (drop 1 ds) + 1.
Proof.
  intros [Hd1 Hd2]. unfold increment_depth_occurence.
  destruct (d <? Z.of_nat (length ds)) eqn:E.
  - apply Z.ltb_lt in E.
    unfold py_getitem, py_setitem. rewrite py_index_nonneg by lia. simpl.
    destruct (lookup_lt_is_Some_2 ds (Z.to_nat d)) as [x Hx]; [lia|].
    rewrite Hx. simpl. eexists. split; [done|].
    rewrite length_insert. split; [lia|].
    destruct ds as [|a ds]; [simpl in *; lia|].
    destruct (Z.to_nat d) as [|k] eqn:Ek; [lia|]. simpl in *.
    rewrite !drop_0. rewrite (py_sum_insert ds k x (x + 1) Hx). lia.
  - apply Z.ltb_ge in E. eexists. split; [done|].
    rewrite length_app. simpl. split; [lia|].
    destruct ds as [|a ds]; [simpl in *; lia|]. simpl.
    rewrite !drop_0, py_sum_app. simpl. lia.
Qed.

(** The loop on a text that never closes more than is open, entered in a
    state whose depth is a level of the histogram. *)
Lemma scan_loop_nonneg quiet rest : forall st,
  0 <= current_depth st <= Z.of_nat (length (depths st)) - 1 ->
  Forall (fun p => 0 <= current_depth st + depth_of p) (prefixes rest) ->
  exists st', scan_loop quiet rest st = Ok st'
    /\ current_depth st' = current_depth st + depth_of rest
    /\ Z.of_nat (length (depths st')) - 1
       = Z.max (Z.of_nat (length (depths st)) - 1)
               (peak (current_depth st) rest)
    /\ py_sum (drop 1 (depths st'))
       = py_sum (drop 1 (depths st)) + count_char lbrace rest.
Proof.
  induction rest as [|c rest IH]; intros st Hcur Hpre.
  - exists st. simpl. rewrite depth_of_nil, peak_nil by lia.
    unfold count_char. simpl. repeat split; lia.
  - simpl in Hpre. apply Forall_cons in Hpre as [_ Hpre].
    rewrite Forall_map in Hpre.
    assert (Hrest : Forall
              (fun p => 0 <= current_depth st + delta c + depth_of p)
              (prefixes rest)).
    { eapply Forall_impl; [exact Hpre|]. intros p Hp. simpl in Hp.
      rewrite depth_of_cons in Hp. lia. }
    assert (Hnext : 0 <= current_depth st + delta c).
    { destruct (prefixes_head rest) as [ps Hps]. rewrite Hps in Hrest.
      apply Forall_cons in Hrest as [H0 _]. rewrite depth_of_nil in H0.
      lia. }
    rewrite peak_cons, depth_of_cons, count_char_cons. simpl.
    unfold scan_step, delta in *.
    destruct (Ascii.eqb_spec c lbrace) as [->|Hl].
    + rewrite decide_True in * by done.
      destruct (increment_positive (depths st) (current_depth st + 1))
        as (ds' & Hinc & Hlen & Hsum); [lia|].
      rewrite Hinc. simpl.
      set (st1 := {| current_depth := current_depth st + 1;
                     depths := ds'; braces := _ |}).
      destruct (IH st1) as (st' & Hrun & Hd & Hl' & Hs'); simpl.
      { lia. }
      { exact Hrest. }
      exists st'. split; [exact Hrun|]. simpl in *.
      pose proof (peak_ge (current_depth st + 1) rest).
      repeat split; lia.
    + rewrite (decide_False (P := c = lbrace)) in * by done.
      destruct (Ascii.eqb_spec c rbrace) as [->|Hr].
      * rewrite decide_True in * by done.
        set (st1 := {| current_depth := current_depth st - 1;
                       depths := depths st; braces := _ |}).
        destruct (IH st1) as (st' & Hrun & Hd & Hl' & Hs'); simpl.
        { lia. }
        { eapply Forall_impl; [exact Hrest|]. intros p Hp. simpl in *. lia. }
        exists st'. split; [exact Hrun|]. simpl in *.
        replace (current_depth st + -1) with (current_depth st - 1) by lia.
        repeat split; lia.
      * rewrite (decide_False (P := c = rbrace)) in * by done.
        destruct (IH st) as (st' & Hrun & Hd & Hl' & Hs').
        { lia. }
        { eapply Forall_impl; [exact Hrest|]. intros p Hp. simpl in *. lia. }
        exists st'. split; [exact Hrun|].
        rewrite Z.add_0_r in *. case_decide; [done|]. repeat split; lia.
Qed.

Section ScannerClaims.

Variable LINE_SEPARATOR : list ascii.

Lemma scan_init_nonempty quiet text st :
  scan_loop quiet text scan_init = Ok st -> (1 <= length (depths st))%nat.
Proof. intros Hs. apply scan_loop_length in Hs. simpl in Hs. lia. Qed.

(** With line 85 read as [==]: whenever [extract_braces] returns, the
    histogram it returns has as
    many entries as the maximum depth it returns, for every text and in
    both rendering modes. *)
Theorem depth_counts_length (source_code filename : list ascii)
    (quiet : bool) (r : analysis) :
  extract_braces LINE_SEPARATOR source_code filename quiet = Ok r ->
  Z.of_nat (length (depth_counts r)) = max_depth r.
Proof.
  unfold extract_braces. intros Hr.
  apply rbind_ok in Hr as (st & Hs & Hr). simplify_eq. simpl.
  apply scan_init_nonempty in Hs.
  unfold slice_from_1. rewrite length_drop. lia.
Qed.

(** With line 85 read as [==]: scanning with rendering suppressed and
    scanning with rendering
    enabled raise the same exception or return results with the same
    maximum depth and the same histogram, and the quiet result carries an
    empty rendered structure. *)
Theorem quiet_same_counts (source_code filename : list ascii) :
  match extract_braces LINE_SEPARATOR source_code filename true,
        extract_braces LINE_SEPARATOR source_code filename false with
  | Ok q, Ok v =>
      max_depth q = max_depth v /\ depth_counts q = depth_counts v
      /\ rendered q = [] /\ source_id q = source_id v
  | Raise e1, Raise e2 => e1 = e2
  | _, _ => False
  end.
Proof.
  unfold extract_braces.
  pose proof (scan_loop_quiet source_code scan_init scan_init) as Hq.
  destruct (scan_loop true source_code scan_init) as [s1|e1],
           (scan_loop false source_code scan_init) as [s2|e2];
    simpl in *; try done; try by apply Hq.
  destruct Hq as [[_ Hd] Hb]; [by split|].
  rewrite Hd, Hb. by repeat split.
Qed.

(** With line 85 read as [==]: on a text whose opening and closing
    delimiters are equal in number
    and in which no prefix closes more than it opens, [extract_braces]
    returns a result whose histogram sums to the number of opening
    delimiters and whose maximum depth is the one of the reference
    scanner. *)
Theorem balanced_scan (source_code filename : list ascii) (quiet : bool) :
  balanced source_code = true ->
  exists r,
    extract_braces LINE_SEPARATOR source_code filename quiet = Ok r
    /\ py_sum (depth_counts r) = count_char lbrace source_code
    /\ max_depth r = reference_max_depth source_code.
Proof.
  unfold balanced. intros Hb. apply andb_true_iff in Hb as [_ Hpre].
  rewrite forallb_forall in Hpre.
  destruct (scan_loop_nonneg quiet source_code scan_init)
    as (st & Hrun & _ & Hlen & Hsum).
  { simpl. lia. }
  { apply Forall_forall. intros p Hp. simpl.
    apply list_elem_of_In, Hpre in Hp. lia. }
  unfold extract_braces. rewrite Hrun. simpl. eexists. split; [done|].
  simpl in *. unfold slice_from_1. split; [lia|].
  rewrite reference_max_depth_peak, Hlen.
  pose proof (peak_ge 0 source_code). lia.
Qed.

End ScannerClaims.

Lemma balanced_scan_witness :
  balanced (s2l "a{b{}c}{}") = true
  /\ exists r,
    extract_braces [newline] (s2l "a{b{}c}{}") (s2l "f.c") false = Ok r
    /\ py_sum (depth_counts r) = count_char lbrace (s2l "a{b{}c}{}")
    /\ max_depth r = reference_max_depth (s2l "a{b{}c}{}").
Proof.
  split; [reflexivity|].
  apply (balanced_scan [newline] (s2l "a{b{}c}{}") (s2l "f.c") false).
  reflexivity.
Defined.


(** The length of the histogram at a concrete text. *)
Lemma depth_counts_length_witness :
  extract_braces [newline] (s2l "{{}}{") (s2l "f.c") true
    = Ok (Analysis 2 [2; 1] [] (s2l "f.c"))
  /\ Z.of_nat (length (depth_counts (Analysis 2 [2; 1] [] (s2l "f.c"))))
     = max_depth (Analysis 2 [2; 1] [] (s2l "f.c")).
Proof.
  split; [reflexivity|].
  apply (depth_counts_length [newline] (s2l "{{}}{") (s2l "f.c") true).
  reflexivity.
Defined.

(** C1: the text [{}}}{{] has three opening delimiters, of which one enters
    a positive level (the levels entered are 1, -1 and 0); the histogram
    returned is [[2]]: the opening delimiter that enters level -1 is counted
    in the last bucket, and the sum is neither three nor one. *)
Theorem unbalanced_counts_corrupted (sep filename : list ascii)
    (quiet : bool) :
  exists r,
    extract_braces sep (s2l "{}}}{{") filename quiet = Ok r
    /\ depth_counts r = [2] /\ max_depth r = 1
    /\ count_char lbrace (s2l "{}}}{{") = 3
    /\ entered_levels (s2l "{}}}{{") = [1; -1; 0].
Proof.
  destruct quiet; (eexists; split; [reflexivity|]); by repeat split.
Qed.

(** C7: on the text [}}}{], where closing delimiters exceed opening ones,
    the scan raises [IndexError] in both rendering modes: the opening
    delimiter enters level -2, and the histogram, of length one, has no
    position -2. *)
Theorem unbalanced_scan_raises (sep filename : list ascii) (quiet : bool) :
  extract_braces sep (s2l "}}}{") filename quiet = Raise IndexError.
Proof. destruct quiet; reflexivity. Qed.

(** C3: the text [{{}}] is balanced, with two opening delimiters, two
    closing ones and a greatest nesting depth of two by the reference
    scanner; the scanner as it is written returns no result on it: the
    operator [===] of line 85 makes Python raise [SyntaxError], whatever the
    line separator, the identifier and the rendering mode. *)
Theorem balanced_scan_syntax_error :
  balanced (s2l "{{}}") = true
  /\ count_char lbrace (s2l "{{}}") = 2
  /\ count_char rbrace (s2l "{{}}") = 2
  /\ reference_max_depth (s2l "{{}}") = 2
  /\ line_85 = EqEqEq /\ line_90 = EqEq
  /\ forall (sep filename : list ascii) (quiet : bool),
       extract_braces_as_written sep (s2l "{{}}") filename quiet
       = Raise SyntaxError.
Proof. by repeat split. Qed.

(** C8: as it is written, the scanner returns neither with rendering
    suppressed nor with rendering enabled, on any text and identifier:
    both calls end in [SyntaxError], so that there is no maximum depth, no
    histogram and no empty rendering to compare. *)
Theorem quiet_scan_syntax_error (sep source_code filename : list ascii) :
  extract_braces_as_written sep source_code filename true
  = Raise SyntaxError
  /\ extract_braces_as_written sep source_code filename false
     = Raise SyntaxError.
Proof. by split. Qed.

(** C9: as it is written, the scanner returns no result of which the
    length of the histogram could be compared with the maximum depth: on
    every text, balanced or not, quiet or not, the outcome is an exception,
    and the exception is [SyntaxError]. *)
Theorem no_result_as_written (sep source_code filename : list ascii)
    (quiet : bool) :
  match extract_braces_as_written sep source_code filename quiet with
  | Ok r => False
  | Raise e => e = SyntaxError
  end.
Proof. reflexivity. Qed.

(** * The order on results *)

Section OrderFacts.
Context {A : Type} `{PyOrdLaws A}.

Lemma py_lt_asym (x y : A) : py_lt x y = true -> py_lt y x = false.
Proof.
  intros Hxy. destruct (py_lt y x) eqn:Hyx; [|done].
  pose proof (py_lt_trans x y x Hxy Hyx) as Hxx.
  rewrite py_lt_irrefl in Hxx. done.
Qed.

Lemma py_le_refl (x : A) : py_le x x.
Proof. apply py_lt_irrefl. Qed.

Lemma py_lt_le (x y : A) : py_lt x y = true -> py_le x y.
Proof. apply py_lt_asym. Qed.

Lemma py_le_trans (x y z : A) : py_le x y -> py_le y z -> py_le x z.
Proof.
  unfold py_le. intros Hxy Hyz.
  destruct (py_lt z x) eqn:Hzx; [|done].
  destruct (py_lt x y) eqn:Hlt.
  - by rewrite (py_lt_trans z x y Hzx Hlt) in Hyz.
  - assert (x = y) by by apply py_lt_total. subst. congruence.
Qed.

Lemma py_le_total (x y : A) : py_le x y \/ py_le y x.
Proof.
  unfold py_le. destruct (py_lt y x) eqn:E; [|by left].
  right. by apply py_lt_asym.
Qed.

End OrderFacts.

#[global] Instance Z_pyord_laws : PyOrdLaws Z.
Proof.
  split; unfold py_lt, Z_pyord.
  - intros x. apply Z.ltb_irrefl.
  - intros x y z Hxy Hyz. apply Z.ltb_lt. apply Z.ltb_lt in Hxy, Hyz. lia.
  - intros x y Hxy Hyx. apply Z.ltb_ge in Hxy, Hyx. lia.
Qed.

#[global] Instance ascii_pyord_laws : PyOrdLaws ascii.
Proof.
  split; unfold py_lt, ascii_pyord.
  - intros x. apply N.ltb_irrefl.
  - intros x y z Hxy Hyz. apply N.ltb_lt. apply N.ltb_lt in Hxy, Hyz. lia.
  - intros x y Hxy Hyx. apply N.ltb_ge in Hxy, Hyx.
    rewrite <- (ascii_N_embedding x), <- (ascii_N_embedding y).
    f_equal. lia.
Qed.

Section ListOrder.
Context {A : Type} `{EqDecision A} `{PyOrdLaws A}.

Lemma list_lt_irrefl (l : list A) : list_lt l l = false.
Proof.
  induction l as [|x l IH]; simpl; [done|]. by rewrite decide_True.
Qed.

Lemma list_lt_trans (l1 : list A) : forall l2 l3,
  list_lt l1 l2 = true -> list_lt l2 l3 = true -> list_lt l1 l3 = true.
Proof.
  induction l1 as [|x l1 IH]; intros [|y l2] [|z l3]; simpl; try done.
  intros H12 H23.
  destruct (decide (x = y)) as [->|Hxy].
  - destruct (decide (y = z)) as [->|Hyz]; [by eapply IH|done].
  - destruct (decide (y = z)) as [->|Hyz].
    + by rewrite decide_False.
    + destruct (decide (x = z)) as [->|Hxz].
      * rewrite (py_lt_asym _ _ H12) in H23. done.
      * by eapply py_lt_trans.
Qed.

Lemma list_lt_total (l1 : list A) : forall l2,
  list_lt l1 l2 = false -> list_lt l2 l1 = false -> l1 = l2.
Proof.
  induction l1 as [|x l1 IH]; intros [|y l2]; simpl; try done.
  intros H12 H21.
  destruct (decide (x = y)) as [->|Hxy].
  - rewrite decide_True in H21 by done. f_equal. by apply IH.
  - rewrite decide_False in H21 by done.
    destruct Hxy. by apply py_lt_total.
Qed.

#[global] Instance list_pyord_laws : PyOrdLaws (list A).
Proof.
  split.
  - apply list_lt_irrefl.
  - apply list_lt_trans.
  - apply list_lt_total.
Qed.

End ListOrder.

(** Lexicographic step: a component that decides unless both sides agree
    on it. *)
Section LexStep.
Context {A : Type} `{EqDecision A} `{PyOrdLaws A}.

Lemma lex_trans (a1 a2 a3 : A) (r12 r23 r13 : bool) :
  (a1 = a2 -> a2 = a3 -> r12 = true -> r23 = true -> r13 = true) ->
  lex a1 a2 r12 = true -> lex a2 a3 r23 = true -> lex a1 a3 r13 = true.
Proof.
  unfold lex. intros Hr H12 H23.
  destruct (decide (a1 = a2)) as [->|?], (decide (a2 = a3)) as [->|?];
    try rewrite decide_True by done; try rewrite decide_False by done;
    auto.
  destruct (decide (a1 = a3)) as [->|?].
  - rewrite (py_lt_asym _ _ H12) in H23. done.
  - by eapply py_lt_trans.
Qed.

Lemma lex_total (a1 a2 : A) (r12 r21 : bool) :
  lex a1 a2 r12 = false -> lex a2 a1 r21 = false ->
  a1 = a2 /\ r12 = false /\ r21 = false.
Proof.
  unfold lex. intros H12 H21.
  destruct (decide (a1 = a2)) as [->|Hne].
  - by rewrite decide_True in H21.
  - rewrite decide_False in H21 by done.
    destruct Hne. by apply py_lt_total.
Qed.

End LexStep.

Lemma analysis_lt_lex (a b : analysis) :
  py_lt a b
  = lex (max_depth a) (max_depth b)
      (lex (depth_counts a) (depth_counts b)
         (lex (rendered a) (rendered b)
            (py_lt (source_id a) (source_id b)))).
Proof. reflexivity. Qed.

#[global] Instance analysis_pyord_laws : PyOrdLaws analysis.
Proof.
  split.
  - intros x. rewrite analysis_lt_lex. unfold lex.
    rewrite !decide_True by done. apply py_lt_irrefl.
  - intros x y z. rewrite !analysis_lt_lex.
    apply lex_trans. intros _ _. apply lex_trans. intros _ _.
    apply lex_trans. intros _ _. apply py_lt_trans.
  - intros [m1 d1 r1 s1] [m2 d2 r2 s2]. rewrite !analysis_lt_lex. simpl.
    intros H12 H21.
    destruct (lex_total _ _ _ _ H12 H21) as (-> & H12' & H21').
    destruct (lex_total _ _ _ _ H12' H21') as (-> & H12'' & H21'').
    destruct (lex_total _ _ _ _ H12'' H21'') as (-> & H3 & H4).
    f_equal. by apply py_lt_total.
Qed.

(** * Properties of [heapq] *)

Section HeapFacts.
Context {A : Type} `{PyOrdLaws A}.
Local Open Scope nat_scope.

Lemma parent_spec i : exists r, r < 2 /\ i - 1 = 2 * parent i + r.
Proof.
  unfold parent. rewrite Nat.shiftr_div_pow2. change (2 ^ 1) with 2.
  exists ((i - 1) mod 2). split.
  - apply Nat.mod_upper_bound. lia.
  - apply Nat.div_mod_eq.
Qed.

Lemma parent_lt i : 0 < i -> parent i < i.
Proof. destruct (parent_spec i) as (r & ? & ?). lia. Qed.

Lemma parent_child c pos :
  0 < c -> parent c = pos <-> c = 2 * pos + 1 \/ c = 2 * pos + 2.
Proof. destruct (parent_spec c) as (r & ? & ?). lia. Qed.

Lemma getpos_ok (h : list A) pos x :
  h !! pos = Some x -> Heapq.getpos h pos = Ok x.
Proof. unfold Heapq.getpos. by intros ->. Qed.

Lemma setpos_ok (h : list A) pos x :
  pos < length h -> Heapq.setpos h pos x = Ok (<[pos := x]> h).
Proof. intros. unfold Heapq.setpos. by rewrite decide_True. Qed.

Lemma delete_insert_same (l : list A) i x :
  delete i (<[i := x]> l) = delete i l.
Proof.
  revert i. induction l as [|a l IH]; intros [|i]; simpl; try done.
  by rewrite IH.
Qed.

Lemma insert_Permutation (l : list A) i x y :
  l !! i = Some x -> <[i := y]> l ≡ₚ y :: delete i l.
Proof.
  intros Hi. rewrite <- (delete_insert_same l i y).
  apply delete_Permutation, list_lookup_insert_eq.
  by eapply lookup_lt_Some.
Qed.

(** Moving the item at [j] to [i] and storing [v] at [j] holds the same
    items as storing [v] at [i]. *)
Lemma move_Permutation (l : list A) i j p v :
  i <> j -> i < length l -> l !! j = Some p ->
  <[j := v]> (<[i := p]> l) ≡ₚ <[i := v]> l.
Proof.
  intros Hij Hi Hj.
  destruct (lookup_lt_is_Some_2 l i Hi) as [a Ha].
  rewrite (insert_Permutation (<[i := p]> l) j p v)
    by (by rewrite list_lookup_insert_ne).
  rewrite (insert_Permutation l i a v Ha).
  apply Permutation_skip.
  apply (Permutation_cons_inv (a := p)).
  rewrite <- delete_Permutation by (by rewrite list_lookup_insert_ne).
  by rewrite (insert_Permutation l i a p Ha).
Qed.

Lemma is_heap_nil : is_heap (@nil A).
Proof. intros i x p _ Hx. done. Qed.

(** The root of a heap is a least item. *)
Lemma heap_root_min (h : list A) r :
  is_heap h -> h !! 0 = Some r -> forall i y, h !! i = Some y -> py_le r y.
Proof.
  intros Hh Hr i. induction (lt_wf i) as [i _ IH]. intros y Hy.
  destruct (decide (i = 0)) as [->|Hi].
  - simplify_eq. apply py_le_refl.
  - assert (Hp : parent i < i) by (apply parent_lt; lia).
    destruct (lookup_lt_is_Some_2 h (parent i)) as [p Hpv].
    { apply lookup_lt_Some in Hy. lia. }
    eapply py_le_trans; [by apply (IH (parent i))|].
    apply (Hh i y p); [lia|done..].
Qed.

Lemma heap_root_least (h : list A) r :
  is_heap h -> h !! 0 = Some r -> forall y, y ∈ h -> py_le r y.
Proof.
  intros Hh Hr y [i Hi]%list_elem_of_lookup. by eapply heap_root_min.
Qed.

(** Storing at [pos] an item that fits there closes the hole. *)
Lemma hole_filled (h : list A) pos v :
  pos < length h -> heap_except h pos -> hole_ok h pos v ->
  (0 < pos -> forall p, h !! parent pos = Some p -> py_le p v) ->
  is_heap (<[pos := v]> h).
Proof.
  intros Hlen Hex Hole Hpar i x p Hi Hx Hp.
  destruct (decide (i = pos)) as [->|Hne].
  - rewrite list_lookup_insert_eq in Hx by done. simplify_eq.
    rewrite list_lookup_insert_ne in Hp
      by (pose proof (parent_lt pos Hi); lia).
    by apply Hpar.
  - rewrite list_lookup_insert_ne in Hx by done.
    destruct (decide (parent i = pos)) as [Hpi|Hpi].
    + rewrite <- Hpi, list_lookup_insert_eq in Hp by (by rewrite Hpi).
      simplify_eq. by destruct (Hole i x) as [? _].
    + rewrite list_lookup_insert_ne in Hp by done.
      by apply (Hex i Hne x p).
Qed.

Lemma siftdown_loop_S fuel (h : list A) startpos pos v :
  Heapq.siftdown_loop (S fuel) h startpos pos v
  = if decide (startpos < pos) then
      p ← Heapq.getpos h (parent pos);
      if py_lt v p then
        h1 ← Heapq.setpos h pos p;
        Heapq.siftdown_loop fuel h1 startpos (parent pos) v
      else Heapq.setpos h pos v
    else Heapq.setpos h pos v.
Proof. reflexivity. Qed.

(** The loop of [_siftdown] from a hole at [pos] down to the root. *)
Lemma siftdown_loop_spec fuel : forall (h : list A) pos v,
  pos <= fuel -> pos < length h ->
  heap_except h pos -> hole_ok h pos v ->
  exists h', Heapq.siftdown_loop fuel h 0 pos v = Ok h'
    /\ is_heap h' /\ h' ≡ₚ <[pos := v]> h.
Proof.
  induction fuel as [|fuel IH]; intros h pos v Hfuel Hlen Hex Hole.
  - assert (pos = 0) as -> by lia. simpl.
    rewrite setpos_ok by done. eexists. split; [done|]. split; [|done].
    apply hole_filled; try done; lia.
  - rewrite siftdown_loop_S. destruct (decide (0 < pos)) as [Hpos|Hpos].
    + pose proof (parent_lt pos Hpos) as Hplt.
      destruct (lookup_lt_is_Some_2 h (parent pos)) as [p Hp]; [lia|].
      rewrite (getpos_ok _ _ _ Hp). simpl.
      destruct (py_lt v p) eqn:Hvp.
      * rewrite setpos_ok by done. simpl.
        destruct (IH (<[pos := p]> h) (parent pos) v)
          as (h' & Hrun & Hheap & Hperm).
        { lia. }
        { rewrite length_insert. lia. }
        { intros i Hi x q Hi0 Hx Hq.
          destruct (decide (i = pos)) as [->|Hne].
          - rewrite list_lookup_insert_eq in Hx by done.
            rewrite list_lookup_insert_ne in Hq by lia.
            simplify_eq. apply py_le_refl.
          - rewrite list_lookup_insert_ne in Hx by done.
            destruct (decide (parent i = pos)) as [Hpi|Hpi].
            + rewrite <- Hpi, list_lookup_insert_eq in Hq
                by (by rewrite Hpi).
              simplify_eq.
              destruct (Hole i x) as [_ Hg]; try done.
              by apply Hg.
            + rewrite list_lookup_insert_ne in Hq by done.
              by apply (Hex i Hne x q). }
        { intros c x Hc Hpc Hx.
          assert (Hcv : py_le v x).
          { destruct (decide (c = pos)) as [->|Hne].
            - rewrite list_lookup_insert_eq in Hx by done.
              simplify_eq. by apply py_lt_le.
            - rewrite list_lookup_insert_ne in Hx by done.
              eapply py_le_trans; [by apply py_lt_le|].
              apply (Hex c Hne x p); try done. by rewrite Hpc. }
          split; [done|]. intros Hpp g Hg.
          rewrite list_lookup_insert_ne in Hg
            by (pose proof (parent_lt (parent pos) Hpp); lia).
          assert (Hgp : py_le g p).
          { apply (Hex (parent pos)); [lia|done..]. }
          eapply py_le_trans; [exact Hgp|].
          destruct (decide (c = pos)) as [->|Hne].
          - rewrite list_lookup_insert_eq in Hx by done.
            simplify_eq. apply py_le_refl.
          - rewrite list_lookup_insert_ne in Hx by done.
            apply (Hex c Hne x p); try done. by rewrite Hpc. }
        exists h'. split; [done|]. split; [done|].
        rewrite Hperm. apply move_Permutation; [lia|done..].
      * rewrite setpos_ok by done. eexists. split; [done|].
        split; [|done]. apply hole_filled; try done.
        intros _ q Hq. by simplify_eq.
    + assert (pos = 0) as -> by lia.
      rewrite setpos_ok by done. eexists. split; [done|]. split; [|done].
      apply hole_filled; try done; lia.
Qed.

Lemma siftdown_spec (h : list A) pos v :
  h !! pos = Some v -> heap_except h pos -> hole_ok h pos v ->
  exists h', Heapq._siftdown h 0 pos = Ok h' /\ is_heap h' /\ h' ≡ₚ h.
Proof.
  intros Hv Hex Hole. unfold Heapq._siftdown.
  rewrite (getpos_ok _ _ _ Hv). simpl.
  destruct (siftdown_loop_spec pos h pos v) as (h' & Hrun & Hheap & Hperm);
    try done.
  { by eapply lookup_lt_Some. }
  exists h'. split; [done|]. split; [done|].
  by rewrite Hperm, list_insert_id.
Qed.

Lemma siftup_loop_S fuel (h : list A) endpos pos :
  Heapq.siftup_loop (S fuel) h endpos pos
  = if decide (2 * pos + 1 < endpos) then
      childpos1 ←
        (if decide (2 * pos + 1 + 1 < endpos) then
           c ← Heapq.getpos h (2 * pos + 1);
           r ← Heapq.getpos h (2 * pos + 1 + 1);
           Ok (if negb (py_lt c r) then 2 * pos + 1 + 1 else 2 * pos + 1)
         else Ok (2 * pos + 1));
      x ← Heapq.getpos h childpos1;
      h1 ← Heapq.setpos h pos x;
      Heapq.siftup_loop fuel h1 endpos childpos1
    else Ok (h, pos).
Proof. reflexivity. Qed.

Lemma siftup_loop_leaf fuel (h : list A) endpos pos :
  endpos <= 2 * pos + 1 -> Heapq.siftup_loop fuel h endpos pos = Ok (h, pos).
Proof.
  intros. destruct fuel; simpl; rewrite decide_False by lia; done.
Qed.

(** The child the loop of [_siftup] moves up is a least child. *)
Lemma smaller_child (h : list A) pos :
  2 * pos + 1 < length h ->
  exists c x,
    (if decide (2 * pos + 1 + 1 < length h) then
       c ← Heapq.getpos h (2 * pos + 1);
       r ← Heapq.getpos h (2 * pos + 1 + 1);
       Ok (if negb (py_lt c r) then 2 * pos + 1 + 1 else 2 * pos + 1)
     else Ok (2 * pos + 1)) = Ok c
    /\ h !! c = Some x /\ pos < c /\ parent c = pos
    /\ forall s y, 0 < s -> parent s = pos -> h !! s = Some y -> py_le x y.
Proof.
  intros Hl.
  destruct (lookup_lt_is_Some_2 h (2 * pos + 1) Hl) as [a Ha].
  assert (Hpl : parent (2 * pos + 1) = pos) by (apply parent_child; lia).
  destruct (decide (2 * pos + 1 + 1 < length h)) as [Hr|Hr].
  - destruct (lookup_lt_is_Some_2 h (2 * pos + 1 + 1) Hr) as [b Hb].
    assert (Hpr : parent (2 * pos + 1 + 1) = pos)
      by (apply parent_child; lia).
    rewrite (getpos_ok _ _ _ Ha), (getpos_ok _ _ _ Hb). simpl.
    destruct (py_lt a b) eqn:Hab; simpl.
    + exists (2 * pos + 1), a. repeat split; try done; try lia.
      intros s y Hs Hps Hy. apply parent_child in Hps; [|done]. destruct Hps as [->| ->].
      * simplify_eq. apply py_le_refl.
      * replace (2 * pos + 2) with (2 * pos + 1 + 1) in Hy by lia.
        simplify_eq. by apply py_lt_le.
    + exists (2 * pos + 1 + 1), b. repeat split; try done; try lia.
      intros s y Hs Hps Hy. apply parent_child in Hps; [|done]. destruct Hps as [->| ->].
      * simplify_eq. exact Hab.
      * replace (2 * pos + 2) with (2 * pos + 1 + 1) in Hy by lia.
        simplify_eq. apply py_le_refl.
  - exists (2 * pos + 1), a. repeat split; try done; try lia.
    intros s y Hs Hps Hy. apply parent_child in Hps; [|done]. destruct Hps as [->| ->].
    + simplify_eq. apply py_le_refl.
    + apply lookup_lt_Some in Hy. lia.
Qed.

(** The loop of [_siftup]: it ends at a leaf, with a heap in which the
    leaf holds a copy of its parent. *)
Lemma siftup_loop_spec fuel : forall (h : list A) pos,
  length h - pos <= fuel -> pos < length h -> sift_inv h pos ->
  exists h' pos',
    Heapq.siftup_loop fuel h (length h) pos = Ok (h', pos')
    /\ length h' = length h /\ pos' < length h /\ length h <= 2 * pos' + 1
    /\ is_heap h'
    /\ forall v, <[pos' := v]> h' ≡ₚ <[pos := v]> h.
Proof.
  induction fuel as [|fuel IH]; intros h pos Hfuel Hlen [Ha Hb]; [lia|].
  destruct (decide (2 * pos + 1 < length h)) as [Hchild|Hleaf].
  - rewrite siftup_loop_S, decide_True by done.
    destruct (smaller_child h pos Hchild)
      as (c & x & -> & Hx & Hc & Hpc & Hleast).
    simpl. rewrite (getpos_ok _ _ _ Hx). simpl.
    rewrite setpos_ok by done. simpl.
    pose proof (lookup_lt_Some _ _ _ Hx) as Hclen.
    destruct (IH (<[pos := x]> h) c)
      as (h' & pos' & Hrun & Hl' & Hp' & Hleaf' & Hheap & Hperm).
    { rewrite length_insert. lia. }
    { by rewrite length_insert. }
    { split.
      - intros i Hpi y q Hi Hy Hq.
        destruct (decide (i = pos)) as [->|Hne].
        + rewrite list_lookup_insert_eq in Hy by done.
          rewrite list_lookup_insert_ne in Hq
            by (pose proof (parent_lt pos Hi); lia).
          simplify_eq. apply (Hb Hi c y q); try done. lia.
        + rewrite list_lookup_insert_ne in Hy by done.
          destruct (decide (parent i = pos)) as [Hpp|Hpp].
          * rewrite <- Hpp, list_lookup_insert_eq in Hq
              by (by rewrite Hpp).
            simplify_eq. by apply (Hleast i y).
          * rewrite list_lookup_insert_ne in Hq by done.
            by apply (Ha i Hpp y q).
      - intros _ c' y g Hc' Hpc' Hy Hg.
        rewrite Hpc, list_lookup_insert_eq in Hg by done.
        rewrite list_lookup_insert_ne in Hy
          by (pose proof (parent_lt c' Hc'); lia).
        injection Hg as <-. apply (Ha c'); [lia|done..|by rewrite Hpc']. }
    rewrite length_insert in *.
    exists h', pos'. split; [done|]. repeat split; try done.
    intros v. rewrite Hperm. apply move_Permutation; [lia|done..].
  - rewrite siftup_loop_leaf by lia.
    exists h, pos. repeat split; try done; try lia.
    intros i y q Hi Hy Hq.
    destruct (decide (parent i = pos)) as [Hpi|Hpi].
    + apply parent_child in Hpi; [|done].
      apply lookup_lt_Some in Hy. lia.
    + by apply (Ha i Hpi y q).
Qed.

(** [_siftup] from the root, when only the root may be out of place. *)
Lemma siftup_spec (h : list A) :
  h <> [] -> sift_inv h 0 ->
  exists h', Heapq._siftup h 0 = Ok h' /\ is_heap h' /\ h' ≡ₚ h.
Proof.
  intros Hne Hinv. unfold Heapq._siftup.
  destruct h as [|v h0] eqn:Eh; [done|]. rewrite <- Eh in *.
  assert (Hv : h !! 0 = Some v) by (by rewrite Eh).
  assert (Hlen : 0 < length h) by (rewrite Eh; simpl; lia).
  rewrite (getpos_ok _ _ _ Hv). simpl.
  destruct (siftup_loop_spec (length h) h 0)
    as (h1 & pos1 & -> & Hl1 & Hp1 & Hleaf & Hheap & Hperm);
    [lia|done|done|].
  simpl. rewrite setpos_ok by lia. simpl.
  destruct (siftdown_spec (<[pos1 := v]> h1) pos1 v)
    as (h' & Hrun & Hheap' & Hperm').
  { apply list_lookup_insert_eq. lia. }
  { intros i Hi y q Hi0 Hy Hq.
    rewrite list_lookup_insert_ne in Hy by done.
    destruct (decide (parent i = pos1)) as [Hpi|Hpi].
    - apply parent_child in Hpi; [|done].
      apply lookup_lt_Some in Hy. lia.
    - rewrite list_lookup_insert_ne in Hq by done.
      by apply (Hheap i y q). }
  { intros c y Hc Hpc Hy. apply parent_child in Hpc; [|done].
    apply lookup_lt_Some in Hy. rewrite length_insert in Hy. lia. }
  exists h'. split; [done|]. split; [done|].
  rewrite Hperm', Hperm. by rewrite list_insert_id.
Qed.

(** [heapq.heappush] keeps the heap and adds the item. *)
Lemma heappush_spec (h : list A) x :
  is_heap h ->
  exists h', Heapq.heappush h x = Ok h' /\ is_heap h' /\ h' ≡ₚ x :: h.
Proof.
  intros Hh. unfold Heapq.heappush.
  rewrite length_app. simpl.
  replace (length h + 1 - 1) with (length h) by lia.
  destruct (siftdown_spec (h ++ [x]) (length h) x)
    as (h' & Hrun & Hheap & Hperm).
  { by rewrite lookup_app_r, Nat.sub_diag by lia. }
  { intros i Hi y q Hi0 Hy Hq.
    assert (i < length h).
    { apply lookup_lt_Some in Hy. rewrite length_app in Hy. simpl in Hy.
      lia. }
    rewrite lookup_app_l in Hy by done.
    rewrite lookup_app_l in Hq by (pose proof (parent_lt i Hi0); lia).
    by apply (Hh i y q). }
  { intros c y Hc Hpc Hy. apply parent_child in Hpc; [|done].
    apply lookup_lt_Some in Hy. rewrite length_app in Hy. simpl in Hy.
    lia. }
  exists h'. split; [done|]. split; [done|].
  rewrite Hperm. by rewrite Permutation_app_comm.
Qed.

(** A heap whose root was overwritten. *)
Lemma sift_inv_root (h : list A) v :
  is_heap h -> sift_inv (<[0 := v]> h) 0.
Proof.
  intros Hh. split; [|lia].
  intros i Hpi y q Hi Hy Hq.
  rewrite list_lookup_insert_ne in Hy by lia.
  rewrite list_lookup_insert_ne in Hq by lia.
  by apply (Hh i y q).
Qed.

Lemma is_heap_take (h : list A) k : is_heap h -> is_heap (take k h).
Proof.
  intros Hh i y q Hi Hy Hq.
  apply lookup_take_Some in Hy as [Hy _].
  apply lookup_take_Some in Hq as [Hq _].
  by apply (Hh i y q).
Qed.

(** [heapq.heappop] hands back a least item and keeps the heap on the
    others. *)
Lemma heappop_spec (h : list A) :
  is_heap h -> h <> [] ->
  exists x h', Heapq.heappop h = Ok (x, h')
    /\ is_heap h' /\ h ≡ₚ x :: h' /\ forall y, y ∈ h -> py_le x y.
Proof.
  intros Hh Hne. unfold Heapq.heappop, Heapq.list_pop.
  destruct (last h) as [lastelt|] eqn:Hlast;
    [|by apply last_None in Hlast].
  apply last_Some in Hlast as [h1 ->]. simpl.
  rewrite length_app. simpl.
  replace (length h1 + 1 - 1) with (length h1) by lia.
  rewrite take_app_length.
  destruct h1 as [|r t] eqn:Eh1.
  - exists lastelt, []. split; [done|]. split; [apply is_heap_nil|].
    split; [done|]. intros y Hy. apply list_elem_of_singleton in Hy as ->.
    apply py_le_refl.
  - rewrite <- Eh1 in *.
    assert (Hr : h1 !! 0 = Some r) by (by rewrite Eh1).
    assert (Hh1 : is_heap h1).
    { rewrite <- (take_app_length h1 [lastelt]). by apply is_heap_take. }
    rewrite (getpos_ok _ _ _ Hr). simpl.
    rewrite setpos_ok by (rewrite Eh1; simpl; lia). simpl.
    destruct (siftup_spec (<[0 := lastelt]> h1))
      as (h3 & -> & Hheap & Hperm).
    { rewrite Eh1. done. }
    { by apply sift_inv_root. }
    simpl. exists r, h3. split; [done|]. split; [done|]. split.
    + rewrite Hperm, Eh1. simpl.
      apply Permutation_skip. symmetry. apply Permutation_cons_append.
    + intros y Hy. apply (heap_root_least (h1 ++ [lastelt]) r); try done.
      by rewrite lookup_app_l by (rewrite Eh1; simpl; lia).
Qed.

(** [heapq.heappushpop]: on a heap whose root is below the item, the root
    is handed back and the item takes its place; otherwise the item is
    handed back and the heap is left as it is. *)
Lemma heappushpop_spec (h : list A) x :
  is_heap h ->
  exists out h', Heapq.heappushpop h x = Ok (out, h')
    /\ is_heap h' /\ out :: h' ≡ₚ x :: h
    /\ match h !! 0 with
       | Some m =>
           if py_lt m x then out = m else out = x /\ h' = h
       | None => out = x /\ h' = h
       end.
Proof.
  intros Hh. unfold Heapq.heappushpop.
  destruct h as [|m t] eqn:Eh.
  - exists x, []. by repeat split.
  - rewrite <- Eh in *.
    assert (Hm : h !! 0 = Some m) by (by rewrite Eh).
    rewrite Hm, (getpos_ok _ _ _ Hm). simpl.
    destruct (py_lt m x) eqn:Hmx.
    + rewrite setpos_ok by (rewrite Eh; simpl; lia). simpl.
      destruct (siftup_spec (<[0 := x]> h)) as (h2 & -> & Hheap & Hperm).
      { rewrite Eh. done. }
      { by apply sift_inv_root. }
      simpl. exists m, h2. split; [done|]. split; [done|]. split; [|done].
      rewrite Hperm, Eh. simpl. apply perm_swap.
    + exists x, h. by repeat split.
Qed.

End HeapFacts.

(** * The bounded heap *)

Section SelectorFacts.
Context {A : Type} `{PyOrdLaws A}.

(** One offer: below capacity the item is added; at capacity a root below
    the item makes way for it, and otherwise nothing changes. *)
Lemma offer_spec (n : Z) (h : list A) (x : A) :
  is_heap h ->
  exists h', heappush n h x = Ok h' /\ is_heap h'
    /\ if Z.of_nat (length h) <? n then h' ≡ₚ x :: h
       else match h !! 0%nat with
            | Some m => if py_lt m x then m :: h' ≡ₚ x :: h else h' = h
            | None => h' = h
            end.
Proof.
  intros Hh. unfold heappush.
  destruct (Z.of_nat (length h) <? n).
  - by apply heappush_spec.
  - destruct (heappushpop_spec h x Hh) as (out & h' & -> & Hheap & Hperm & Hout).
    simpl. exists h'. split; [done|]. split; [done|].
    destruct (h !! 0%nat) as [m|]; [|by destruct Hout].
    destruct (py_lt m x); [by subst|by destruct Hout].
Qed.

Lemma offer_all_snoc (n : Z) (xs : list A) (x : A) :
  offer_all n (xs ++ [x]) = h ← offer_all n xs; heappush n h x.
Proof. unfold offer_all. by rewrite foldl_app. Qed.

(** After any offers the heap holds [min n (number of offers)] items, and
    the items offered split into the heap and a list of discarded items
    none of which is above an item of the heap. *)
Lemma offer_all_spec (n : Z) (xs : list A) :
  1 <= n ->
  exists h d, offer_all n xs = Ok h /\ is_heap h
    /\ Z.of_nat (length h) = Z.min n (Z.of_nat (length xs))
    /\ xs ≡ₚ h ++ d
    /\ forall r y, r ∈ h -> y ∈ d -> py_le y r.
Proof.
  intros Hn. induction xs as [|x xs IH] using rev_ind.
  - exists [], []. split; [done|]. split; [apply is_heap_nil|].
    split; [simpl; lia|]. split; [done|].
    intros r y Hr. by apply elem_of_nil in Hr.
  - destruct IH as (h & d & Hrun & Hheap & Hlen & Hperm & Hle).
    rewrite offer_all_snoc, Hrun. simpl.
    destruct (offer_spec n h x Hheap) as (h' & -> & Hheap' & Hcase).
    pose proof (Permutation_length Hperm) as Hplen.
    rewrite length_app in Hplen.
    destruct (Z.of_nat (length h) <? n) eqn:Hcap.
    + apply Z.ltb_lt in Hcap.
      assert (d = []) as -> by (apply nil_length_inv; lia).
      exists h', []. split; [done|]. split; [done|].
      pose proof (Permutation_length Hcase) as Hl'. simpl in Hl'.
      rewrite length_app. simpl. repeat split.
      * lia.
      * rewrite app_nil_r in *. rewrite Hcase, Hperm.
        symmetry. apply Permutation_cons_append.
      * intros r y _ Hy. by apply elem_of_nil in Hy.
    + apply Z.ltb_ge in Hcap.
      destruct (h !! 0%nat) as [m|] eqn:Hm.
      2:{ apply lookup_ge_None in Hm. lia. }
      assert (Hmin : forall y, y ∈ h -> py_le m y)
        by (by apply heap_root_least).
      assert (Hmh : m ∈ h) by (by eapply list_elem_of_lookup_2).
      destruct (py_lt m x) eqn:Hmx.
      * exists h', (m :: d). split; [done|]. split; [done|].
        pose proof (Permutation_length Hcase) as Hl'. simpl in Hl'.
        rewrite length_app. simpl. repeat split.
        -- lia.
        -- transitivity ((x :: h) ++ d).
           { simpl. rewrite <- Hperm. symmetry.
             apply Permutation_cons_append. }
           rewrite <- Hcase. simpl. apply Permutation_middle.
        -- intros r y Hr Hy.
           assert (Hr' : r ∈ x :: h).
           { rewrite <- Hcase. by apply list_elem_of_further. }
           assert (Hmr : py_le m r).
           { apply elem_of_cons in Hr' as [->|Hr'];
               [by apply py_lt_le|by apply Hmin]. }
           apply elem_of_cons in Hy as [->|Hy]; [done|].
           eapply py_le_trans; [|exact Hmr]. by apply Hle.
      * subst h'. exists h, (x :: d). split; [done|]. split; [done|].
        rewrite length_app. simpl. repeat split.
        -- lia.
        -- transitivity (x :: h ++ d); [|apply Permutation_middle].
           rewrite <- Hperm. symmetry. apply Permutation_cons_append.
        -- intros r y Hr Hy.
           apply elem_of_cons in Hy as [->|Hy]; [|by apply Hle].
           eapply py_le_trans; [exact Hmx|]. by apply Hmin.
Qed.

(** Whatever the capacity, the offers leave a heap. *)
Lemma offer_all_heap (n : Z) (xs : list A) (h : list A) :
  offer_all n xs = Ok h -> is_heap h.
Proof.
  revert h. induction xs as [|x xs IH] using rev_ind; intros h Hrun.
  - unfold offer_all in Hrun. simpl in Hrun. simplify_eq. apply is_heap_nil.
  - rewrite offer_all_snoc in Hrun.
    destruct (offer_all n xs) as [h0|e]; [|done]. simpl in Hrun.
    destruct (offer_spec n h0 x (IH h0 eq_refl)) as (h' & Hoff & Hheap & _).
    rewrite Hrun in Hoff. by simplify_eq.
Qed.

End SelectorFacts.

(** C4: with a capacity [n >= 1], after any sequence of offers the bounded
    heap holds [min n (number of offers)] results; the results offered are
    those it holds together with the discarded ones, and no discarded
    result is above a retained one under the ordering key; and once the
    heap is at capacity, its root is a least result, and one more offer
    evicts the root if the result offered is strictly greater than it and
    otherwise leaves the heap as it is. *)
Theorem selector_keeps_greatest (n : Z) (offers : list analysis) :
  1 <= n ->
  exists h d,
    offer_all n offers = Ok h
    /\ Z.of_nat (length h) = Z.min n (Z.of_nat (length offers))
    /\ offers ≡ₚ h ++ d
    /\ (forall r y, r ∈ h -> y ∈ d -> py_le y r)
    /\ (Z.of_nat (length h) = n ->
        forall x, exists m h',
          h !! 0%nat = Some m
          /\ (forall y, y ∈ h -> py_le m y)
          /\ offer_all n (offers ++ [x]) = Ok h'
          /\ if py_lt m x then m :: h' ≡ₚ x :: h else h' = h).
Proof.
  intros Hn.
  destruct (offer_all_spec n offers Hn)
    as (h & d & Hrun & Hheap & Hlen & Hperm & Hle).
  exists h, d. repeat (split; [done|]).
  intros Hfull x.
  destruct (h !! 0%nat) as [m|] eqn:Hm.
  2:{ apply lookup_ge_None in Hm. lia. }
  destruct (offer_spec n h x Hheap) as (h' & Hoff & _ & Hcase).
  rewrite Hm in Hcase.
  replace (Z.of_nat (length h) <? n) with false in Hcase
    by (symmetry; apply Z.ltb_ge; lia).
  exists m, h'. split; [done|]. split; [by apply heap_root_least|].
  split; [|done]. by rewrite offer_all_snoc, Hrun.
Qed.

Lemma selector_keeps_greatest_witness :
  1 <= 2
  /\ exists h d,
    offer_all 2 [Analysis 1 [1] [] (s2l "a.c"); Analysis 3 [1; 1; 1] []
                   (s2l "b.c"); Analysis 2 [1; 1] [] (s2l "c.c")] = Ok h
    /\ Z.of_nat (length h) = Z.min 2 (Z.of_nat 3)
    /\ [Analysis 1 [1] [] (s2l "a.c"); Analysis 3 [1; 1; 1] [] (s2l "b.c");
        Analysis 2 [1; 1] [] (s2l "c.c")] ≡ₚ h ++ d
    /\ (forall r y, r ∈ h -> y ∈ d -> py_le y r)
    /\ (Z.of_nat (length h) = 2 ->
        forall x, exists m h',
          h !! 0%nat = Some m
          /\ (forall y, y ∈ h -> py_le m y)
          /\ offer_all 2
               ([Analysis 1 [1] [] (s2l "a.c"); Analysis 3 [1; 1; 1] []
                   (s2l "b.c"); Analysis 2 [1; 1] [] (s2l "c.c")] ++ [x])
             = Ok h'
          /\ if py_lt m x then m :: h' ≡ₚ x :: h else h' = h).
Proof.
  split; [lia|].
  apply (selector_keeps_greatest 2
           [Analysis 1 [1] [] (s2l "a.c"); Analysis 3 [1; 1; 1] []
              (s2l "b.c"); Analysis 2 [1; 1] [] (s2l "c.c")]).
  lia.
Defined.

(** * The report of directory mode *)

Section DrainFacts.

(** The heap never holds more results than the capacity. *)
Lemma offer_length n (h h' : list analysis) r :
  is_heap h -> Z.of_nat (length h) <= Z.max 0 n ->
  heappush n h r = Ok h' -> Z.of_nat (length h') <= Z.max 0 n.
Proof.
  intros Hh Hlen Hoff.
  destruct (offer_spec n h r Hh) as (h2 & Hoff' & _ & Hcase).
  rewrite Hoff in Hoff'. simplify_eq.
  destruct (Z.of_nat (length h) <? n) eqn:Hcap.
  - apply Z.ltb_lt in Hcap. apply Permutation_length in Hcase.
    simpl in Hcase. lia.
  - destruct (h !! 0%nat) as [m|]; [|by subst].
    destruct (py_lt m r); [|by subst].
    apply Permutation_length in Hcase. simpl in Hcase. lia.
Qed.

Lemma offer_all_length (n : Z) (xs h : list analysis) :
  offer_all n xs = Ok h -> Z.of_nat (length h) <= Z.max 0 n.
Proof.
  revert h. induction xs as [|x xs IH] using rev_ind; intros h Hrun.
  - unfold offer_all in Hrun. simpl in Hrun. simplify_eq. simpl. lia.
  - rewrite offer_all_snoc in Hrun.
    destruct (offer_all n xs) as [h0|e] eqn:Hxs; [|done]. simpl in Hrun.
    eapply offer_length; [|by apply IH|exact Hrun].
    by eapply offer_all_heap.
Qed.

(** Popping [count] results off a heap that holds as many: they come out
    in non-decreasing order. *)
Lemma drain_spec count : forall (h : list analysis),
  is_heap h -> (count <= length h)%nat ->
  exists rs left, drain count h = Ok rs
    /\ length rs = count /\ h ≡ₚ rs ++ left /\ StronglySorted py_le rs.
Proof.
  induction count as [|count IH]; intros h Hh Hlen.
  - exists [], h. repeat split; try done. constructor.
  - assert (Hne : h <> []) by (intros ->; simpl in Hlen; lia).
    destruct (heappop_spec h Hh Hne) as (x & h1 & Hpop & Hh1 & Hperm & Hmin).
    pose proof (Permutation_length Hperm) as Hl. simpl in Hl.
    destruct (IH h1 Hh1) as (rs & left & Hrun & Hrl & Hperm1 & Hsort);
      [lia|].
    exists (x :: rs), left. simpl. rewrite Hpop. simpl. rewrite Hrun. simpl.
    split; [done|]. split; [by rewrite Hrl|]. split.
    + by rewrite Hperm, Hperm1.
    + constructor; [done|]. apply Forall_forall. intros y Hy.
      apply Hmin. rewrite Hperm, Hperm1.
      apply list_elem_of_further, elem_of_app. by left.
Qed.

(** The results popped are not greater than the ones left in the heap. *)
Lemma drain_least count : forall (h : list analysis),
  is_heap h -> (count <= length h)%nat ->
  exists rs left, drain count h = Ok rs
    /\ length rs = count /\ h ≡ₚ rs ++ left /\ StronglySorted py_le rs
    /\ Forall (fun r => Forall (py_le r) left) rs.
Proof.
  induction count as [|count IH]; intros h Hh Hlen.
  - exists [], h. repeat split; try done; constructor.
  - assert (Hne : h <> []) by (intros ->; simpl in Hlen; lia).
    destruct (heappop_spec h Hh Hne) as (x & h1 & Hpop & Hh1 & Hperm & Hmin).
    pose proof (Permutation_length Hperm) as Hl. simpl in Hl.
    destruct (IH h1 Hh1) as (rs & left & Hrun & Hrl & Hperm1 & Hsort & Hleast);
      [lia|].
    exists (x :: rs), left. simpl. rewrite Hpop. simpl. rewrite Hrun. simpl.
    split; [done|]. split; [by rewrite Hrl|]. split; [|split].
    + by rewrite Hperm, Hperm1.
    + constructor; [done|]. apply Forall_forall. intros y Hy.
      apply Hmin. rewrite Hperm, Hperm1.
      apply list_elem_of_further, elem_of_app. by left.
    + constructor; [|done]. apply Forall_forall. intros y Hy.
      apply Hmin. rewrite Hperm, Hperm1.
      apply list_elem_of_further, elem_of_app. by right.
Qed.

Lemma print_all_blocks results quiet :
  print_all results quiet = flat_map (block quiet) results.
Proof.
  unfold print_all. induction results as [|r results IH]; [done|].
  cbn [flat_map]. rewrite IH. f_equal.
  unfold print_result, block. by destruct quiet.
Qed.

(** The report of a heap: the first [min (len heap) n] results popped, a
    block each, in non-decreasing order, none greater than a result left
    in the heap. *)
Lemma report_spec (h : list analysis) (n : Z) (quiet : bool) :
  is_heap h ->
  exists results left,
    report h n quiet = Ok (flat_map (block quiet) results)
    /\ drain (length results) h = Ok results
    /\ length results = Z.to_nat (Z.min (Z.of_nat (length h)) n)
    /\ h ≡ₚ results ++ left
    /\ StronglySorted py_le results
    /\ Forall (fun r => Forall (py_le r) left) results.
Proof.
  intros Hh. unfold report.
  destruct (drain_least (Z.to_nat (Z.min (Z.of_nat (length h)) n)) h Hh)
    as (rs & left & Hrun & Hrl & Hperm & Hsort & Hleast); [lia|].
  exists rs, left. rewrite Hrun. simpl. rewrite print_all_blocks, Hrl.
  by repeat split.
Qed.

(** The report of a heap that holds no more than [n] results: all of
    them. *)
Lemma report_all (h : list analysis) (n : Z) (quiet : bool) :
  is_heap h -> Z.of_nat (length h) <= Z.max 0 n ->
  exists results,
    drain (length h) h = Ok results
    /\ results ≡ₚ h /\ StronglySorted py_le results
    /\ report h n quiet = Ok (flat_map (block quiet) results).
Proof.
  intros Hh Hlen.
  destruct (report_spec h n quiet Hh)
    as (rs & left & Hrep & Hrun & Hrl & Hperm & Hsort & _).
  assert (Hcount : length rs = length h).
  { rewrite Hrl. destruct h; simpl in *; lia. }
  assert (left = []) as ->.
  { apply Permutation_length in Hperm. rewrite length_app in Hperm.
    apply nil_length_inv. lia. }
  rewrite app_nil_r in Hperm. rewrite Hcount in Hrun.
  exists rs. by repeat split.
Qed.

End DrainFacts.

(** * Properties of the directory walk *)

Section WalkFacts.

Variable extension_filter : list (list ascii) -> list ascii -> result bool.
Variable analyze : list ascii -> bool -> W analysis.
Variable fs : filesystem.

Local Abbreviation pd := (process_directory extension_filter analyze).
Local Abbreviation wd := (walk_dirs extension_filter analyze).
Local Abbreviation walk := (walk_through_directory extension_filter analyze fs).

Lemma W_eta {B} (w : W B) : MkW (scanned w) (outcome w) = w.
Proof. by destruct w. Qed.

(** One file of [process_directory], case by case. *)
Lemma process_directory_cons n exts quiet dirpath filename rest h :
  pd n exts quiet dirpath (filename :: rest) h
  = match extension_filter exts filename with
    | Raise e => MkW [] (Raise e)
    | Ok false => pd n exts quiet dirpath rest h
    | Ok true =>
        let w := analyze (os_path_join dirpath filename) quiet in
        match outcome w with
        | Raise e => MkW (scanned w) (Raise e)
        | Ok r =>
            match heappush n h r with
            | Raise e => MkW (scanned w) (Raise e)
            | Ok h1 =>
                let w' := pd n exts quiet dirpath rest h1 in
                MkW (scanned w ++ scanned w') (outcome w')
            end
        end
    end.
Proof.
  simpl. unfold mbind, W_bind, wbind, lift. simpl.
  destruct (extension_filter exts filename) as [[|]|e]; simpl; try done.
  - destruct (outcome (analyze _ quiet)) as [r|e]; simpl; [|done].
    destruct (heappush n h r) as [h1|e]; simpl.
    + by destruct (outcome (pd _ _ _ _ _ _)).
    + by rewrite app_nil_r.
  - by rewrite W_eta.
Qed.

Lemma walk_dirs_cons n exts quiet dirpath dirnames filenames rest h :
  wd n exts quiet ((dirpath, dirnames, filenames) :: rest) h
  = let w := pd n exts quiet dirpath filenames h in
    match outcome w with
    | Ok h1 =>
        let w' := wd n exts quiet rest h1 in
        MkW (scanned w ++ scanned w') (outcome w')
    | Raise e => MkW (scanned w) (Raise e)
    end.
Proof. reflexivity. Qed.

Lemma walk_listdir n exts quiet rootpath :
  walk rootpath false n exts quiet
  = match os_listdir fs rootpath with
    | Ok filenames => pd n exts quiet rootpath filenames []
    | Raise e => MkW [] (Raise e)
    end.
Proof.
  unfold walk_through_directory, mbind, W_bind, wbind, lift. simpl.
  destruct (os_listdir fs rootpath) as [filenames|e]; simpl; [|done].
  destruct (pd n exts quiet rootpath filenames []) as [sc [h|e]]; done.
Qed.

(** The capacity bears on the heap only: runs with two capacities scan
    the same files and raise the same exceptions. *)
Lemma process_directory_same n1 n2 exts quiet dirpath filenames :
  forall h1 h2, is_heap h1 -> is_heap h2 ->
  same_walk (pd n1 exts quiet dirpath filenames h1)
            (pd n2 exts quiet dirpath filenames h2).
Proof.
  induction filenames as [|f rest IH]; intros h1 h2 Hh1 Hh2.
  - by split.
  - rewrite !process_directory_cons.
    destruct (extension_filter exts f) as [[|]|e];
      [|by apply IH|by split].
    simpl. destruct (outcome (analyze _ quiet)) as [r|e]; [|by split].
    destruct (offer_spec n1 h1 r Hh1) as (h1' & -> & Hh1' & _).
    destruct (offer_spec n2 h2 r Hh2) as (h2' & -> & Hh2' & _).
    destruct (IH h1' h2' Hh1' Hh2') as [Hs Ho].
    split; simpl; [by rewrite Hs|done].
Qed.

Lemma walk_dirs_same n1 n2 exts quiet dirs :
  forall h1 h2, is_heap h1 -> is_heap h2 ->
  same_walk (wd n1 exts quiet dirs h1) (wd n2 exts quiet dirs h2).
Proof.
  induction dirs as [|[[dirpath dirnames] filenames] rest IH];
    intros h1 h2 Hh1 Hh2.
  - by split.
  - rewrite !walk_dirs_cons. simpl.
    destruct (process_directory_same n1 n2 exts quiet dirpath filenames
                h1 h2 Hh1 Hh2) as [Hs Ho].
    destruct (outcome (pd n1 _ _ _ _ _)) as [h1'|e1],
             (outcome (pd n2 _ _ _ _ _)) as [h2'|e2];
      try done.
    destruct Ho as [Hh1' Hh2'].
    destruct (IH h1' h2' Hh1' Hh2') as [Hs' Ho'].
    split; simpl; [by rewrite Hs, Hs'|done].
Qed.

Lemma walk_same n1 n2 rootpath recursive exts quiet :
  same_walk (walk rootpath recursive n1 exts quiet)
            (walk rootpath recursive n2 exts quiet).
Proof.
  destruct recursive.
  - apply walk_dirs_same; apply is_heap_nil.
  - rewrite !walk_listdir.
    destruct (os_listdir fs rootpath) as [filenames|e]; [|by split].
    apply process_directory_same; apply is_heap_nil.
Qed.

Lemma walk_is_heap n rootpath recursive exts quiet h :
  outcome (walk rootpath recursive n exts quiet) = Ok h -> is_heap h.
Proof.
  intros Hw.
  destruct (walk_same n n rootpath recursive exts quiet) as [_ Ho].
  rewrite Hw in Ho. by destruct Ho.
Qed.

Lemma process_directory_heap n exts quiet dirpath filenames h h' :
  is_heap h ->
  outcome (pd n exts quiet dirpath filenames h) = Ok h' -> is_heap h'.
Proof.
  intros Hh Hout.
  destruct (process_directory_same n n exts quiet dirpath filenames h h
              Hh Hh) as [_ Ho].
  rewrite Hout in Ho. by destruct Ho.
Qed.

(** The heap is the one the results of the files analyzed, offered in the
    order of the walk, leave. *)
Lemma process_directory_offers n exts quiet dirpath filenames :
  forall h rs0 h',
  offer_all n rs0 = Ok h ->
  outcome (pd n exts quiet dirpath filenames h) = Ok h' ->
  exists paths rs,
    offer_all n (rs0 ++ rs) = Ok h'
    /\ Forall2 (fun p r => outcome (analyze p quiet) = Ok r) paths rs
    /\ scanned (pd n exts quiet dirpath filenames h)
       = concat (map (fun p => scanned (analyze p quiet)) paths)
    /\ Forall (fun p => exists f, f ∈ filenames
                 /\ extension_filter exts f = Ok true
                 /\ p = os_path_join dirpath f) paths.
Proof.
  induction filenames as [|f rest IH]; intros h rs0 h' Hoff Hout.
  - simpl in Hout. simplify_eq. exists [], []. rewrite app_nil_r.
    repeat split; try done; constructor.
  - rewrite process_directory_cons in Hout |- *.
    assert (Hweaken : forall paths,
              Forall (fun p => exists f', f' ∈ rest
                 /\ extension_filter exts f' = Ok true
                 /\ p = os_path_join dirpath f') paths ->
              Forall (fun p => exists f', f' ∈ f :: rest
                 /\ extension_filter exts f' = Ok true
                 /\ p = os_path_join dirpath f') paths).
    { intros paths Hpaths. eapply Forall_impl; [exact Hpaths|].
      intros p (f' & Hf' & Hrest).
      exists f'. split; [by apply list_elem_of_further|done]. }
    destruct (extension_filter exts f) as [[|]|e] eqn:Hsel; [| |done].
    + simpl in Hout |- *.
      destruct (outcome (analyze _ quiet)) as [r|e] eqn:Hr; [|done].
      destruct (heappush n h r) as [h1|e] eqn:Hpush; [|done].
      simpl in Hout |- *.
      destruct (IH h1 (rs0 ++ [r]) h') as (paths & rs & Hrs & Hres & Hsc & Hsel');
        [|done|].
      { by rewrite offer_all_snoc, Hoff. }
      exists (os_path_join dirpath f :: paths), (r :: rs).
      split; [by rewrite <- app_assoc in Hrs|].
      split; [by constructor|]. split; [simpl; by rewrite Hsc|].
      constructor; [|by apply Hweaken].
      exists f. split; [apply list_elem_of_here|done].
    + destruct (IH h rs0 h' Hoff Hout) as (paths & rs & Hrs & Hres & Hsc & Hsel').
      exists paths, rs. repeat split; try done. by apply Hweaken.
Qed.

Lemma walk_dirs_offers n exts quiet dirs :
  forall h rs0 h',
  offer_all n rs0 = Ok h ->
  outcome (wd n exts quiet dirs h) = Ok h' ->
  exists paths rs,
    offer_all n (rs0 ++ rs) = Ok h'
    /\ Forall2 (fun p r => outcome (analyze p quiet) = Ok r) paths rs
    /\ scanned (wd n exts quiet dirs h)
       = concat (map (fun p => scanned (analyze p quiet)) paths)
    /\ Forall (fun p => exists dirpath dirnames filenames f,
                 (dirpath, dirnames, filenames) ∈ dirs /\ f ∈ filenames
                 /\ extension_filter exts f = Ok true
                 /\ p = os_path_join dirpath f) paths.
Proof.
  induction dirs as [|[[dirpath dirnames] filenames] rest IH];
    intros h rs0 h' Hoff Hout.
  - simpl in Hout. simplify_eq. exists [], []. rewrite app_nil_r.
    repeat split; try done; constructor.
  - rewrite walk_dirs_cons in Hout |- *. simpl in Hout |- *.
    destruct (outcome (pd n exts quiet dirpath filenames h))
      as [h1|e] eqn:Hp; [|done].
    simpl in Hout |- *.
    destruct (process_directory_offers _ _ _ _ _ _ _ _ Hoff Hp)
      as (paths1 & rs1 & Hrs1 & Hres1 & Hsc1 & Hsel1).
    destruct (IH h1 (rs0 ++ rs1) h' Hrs1 Hout)
      as (paths2 & rs2 & Hrs2 & Hres2 & Hsc2 & Hsel2).
    exists (paths1 ++ paths2), (rs1 ++ rs2).
    split; [by rewrite app_assoc|].
    split; [by apply Forall2_app|].
    split; [by rewrite map_app, concat_app, Hsc1, Hsc2|].
    apply Forall_app. split.
    + eapply Forall_impl; [exact Hsel1|]. intros p (f & Hf & Hrest).
      exists dirpath, dirnames, filenames, f.
      split; [apply list_elem_of_here|done].
    + eapply Forall_impl; [exact Hsel2|].
      intros p (d & dn & fn & f & Hd & Hrest).
      exists d, dn, fn, f. split; [by apply list_elem_of_further|done].
Qed.

Lemma walk_offers rootpath recursive n exts quiet h :
  outcome (walk rootpath recursive n exts quiet) = Ok h ->
  exists paths results,
    offer_all n results = Ok h
    /\ Forall2 (fun p r => outcome (analyze p quiet) = Ok r) paths results
    /\ scanned (walk rootpath recursive n exts quiet)
       = concat (map (fun p => scanned (analyze p quiet)) paths)
    /\ Forall (fun p => exists dirpath f,
                 listed fs rootpath recursive dirpath f
                 /\ extension_filter exts f = Ok true
                 /\ p = os_path_join dirpath f) paths.
Proof.
  destruct recursive.
  - intros Hout.
    destruct (walk_dirs_offers n exts quiet (os_walk fs rootpath) [] [] h)
      as (paths & rs & Hrs & Hres & Hsc & Hsel); [done|exact Hout|].
    exists paths, rs. repeat split; try done.
    eapply Forall_impl; [exact Hsel|].
    intros p (d & dn & fn & f & Hd & Hf & Hrest).
    exists d, f. split; [|done]. by exists dn, fn.
  - rewrite walk_listdir.
    destruct (os_listdir fs rootpath) as [filenames|e] eqn:Hls; [|done].
    intros Hout.
    destruct (process_directory_offers n exts quiet rootpath filenames
                [] [] h) as (paths & rs & Hrs & Hres & Hsc & Hsel);
      [done|exact Hout|].
    exists paths, rs. repeat split; try done.
    eapply Forall_impl; [exact Hsel|]. intros p (f & Hf & Hrest).
    exists rootpath, f. split; [|done]. split; [done|]. by exists filenames.
Qed.

Lemma walk_length n rootpath recursive exts quiet h :
  outcome (walk rootpath recursive n exts quiet) = Ok h ->
  Z.of_nat (length h) <= Z.max 0 n.
Proof.
  intros Hout. destruct (walk_offers _ _ _ _ _ _ Hout) as (_ & rs & Hrs & _).
  by eapply offer_all_length.
Qed.

(** When the walk returns, the filter raised on none of the files it came
    across, and every file it selected was analyzed without exception. *)
Lemma process_directory_returns n exts quiet dirpath filenames :
  forall h h',
  outcome (pd n exts quiet dirpath filenames h) = Ok h' ->
  forall f, f ∈ filenames ->
  exists b, extension_filter exts f = Ok b
    /\ (b = true ->
        exists r, outcome (analyze (os_path_join dirpath f) quiet) = Ok r).
Proof.
  induction filenames as [|f0 rest IH]; intros h h' Hout f Hf.
  - by apply elem_of_nil in Hf.
  - rewrite process_directory_cons in Hout.
    destruct (extension_filter exts f0) as [[|]|e] eqn:Hsel; [| |done].
    + simpl in Hout.
      destruct (outcome (analyze _ quiet)) as [r|e] eqn:Hr; [|done].
      destruct (heappush n h r) as [h1|e]; [|done]. simpl in Hout.
      apply elem_of_cons in Hf as [->|Hf]; [|by eapply IH].
      exists true. split; [done|]. intros _. by exists r.
    + apply elem_of_cons in Hf as [->|Hf]; [|by eapply IH].
      by exists false.
Qed.

Lemma walk_dirs_returns n exts quiet dirs :
  forall h h',
  outcome (wd n exts quiet dirs h) = Ok h' ->
  forall dirpath dirnames filenames f,
  (dirpath, dirnames, filenames) ∈ dirs -> f ∈ filenames ->
  exists b, extension_filter exts f = Ok b
    /\ (b = true ->
        exists r, outcome (analyze (os_path_join dirpath f) quiet) = Ok r).
Proof.
  induction dirs as [|[[dirpath0 dirnames0] filenames0] rest IH];
    intros h h' Hout dirpath dirnames filenames f Hd Hf.
  - by apply elem_of_nil in Hd.
  - rewrite walk_dirs_cons in Hout. simpl in Hout.
    destruct (outcome (pd n exts quiet dirpath0 filenames0 h))
      as [h1|e] eqn:Hp; [|done].
    simpl in Hout. apply elem_of_cons in Hd as [Heq|Hd].
    + simplify_eq. by eapply process_directory_returns.
    + by eapply IH.
Qed.

Lemma walk_returns rootpath recursive n exts quiet h :
  outcome (walk rootpath recursive n exts quiet) = Ok h ->
  forall dirpath f, listed fs rootpath recursive dirpath f ->
  exists b, extension_filter exts f = Ok b
    /\ (b = true ->
        exists r, outcome (analyze (os_path_join dirpath f) quiet) = Ok r).
Proof.
  destruct recursive.
  - intros Hout dirpath f (dirnames & filenames & Hd & Hf).
    by eapply walk_dirs_returns.
  - rewrite walk_listdir. intros Hout dirpath f (-> & filenames & Hls & Hf).
    rewrite Hls in Hout. by eapply process_directory_returns.
Qed.

(** The files in the log are files the walk came across and the filter
    selected, when the analyzer logs no other file than the one it is
    given. *)
Lemma process_directory_scanned n exts quiet dirpath filenames :
  (forall p q x, x ∈ scanned (analyze p q) -> x = p) ->
  forall h p,
  p ∈ scanned (pd n exts quiet dirpath filenames h) ->
  exists f, f ∈ filenames
    /\ extension_filter exts f = Ok true
    /\ p = os_path_join dirpath f.
Proof.
  intros Hlog. induction filenames as [|f rest IH]; intros h p Hp.
  - simpl in Hp. by apply elem_of_nil in Hp.
  - rewrite process_directory_cons in Hp.
    assert (Hrest : forall h1,
              p ∈ scanned (pd n exts quiet dirpath rest h1) ->
              exists f', f' ∈ f :: rest
                /\ extension_filter exts f' = Ok true
                /\ p = os_path_join dirpath f').
    { intros h1 Hin. destruct (IH h1 p Hin) as (f' & Hf' & Hs & Hj).
      exists f'. split; [by apply list_elem_of_further|done]. }
    assert (Hhere : extension_filter exts f = Ok true ->
              p ∈ scanned (analyze (os_path_join dirpath f) quiet) ->
              exists f', f' ∈ f :: rest
                /\ extension_filter exts f' = Ok true
                /\ p = os_path_join dirpath f').
    { intros Hs Hin. apply Hlog in Hin.
      exists f. split; [apply list_elem_of_here|done]. }
    destruct (extension_filter exts f) as [[|]|e];
      [|by apply (Hrest h)|by apply elem_of_nil in Hp].
    simpl in Hp.
    destruct (outcome (analyze _ quiet)) as [r|e]; [|by apply Hhere].
    destruct (heappush n h r) as [h1|e]; [|by apply Hhere].
    simpl in Hp. apply elem_of_app in Hp as [Hp|Hp].
    + by apply Hhere.
    + by apply (Hrest h1).
Qed.

Lemma walk_dirs_scanned n exts quiet dirs :
  (forall p q x, x ∈ scanned (analyze p q) -> x = p) ->
  forall h p,
  p ∈ scanned (wd n exts quiet dirs h) ->
  exists dirpath dirnames filenames f,
    (dirpath, dirnames, filenames) ∈ dirs /\ f ∈ filenames
    /\ extension_filter exts f = Ok true
    /\ p = os_path_join dirpath f.
Proof.
  intros Hlog.
  induction dirs as [|[[dirpath dirnames] filenames] rest IH]; intros h p Hp.
  - simpl in Hp. by apply elem_of_nil in Hp.
  - rewrite walk_dirs_cons in Hp. simpl in Hp.
    assert (Hhere : p ∈ scanned (pd n exts quiet dirpath filenames h) ->
              exists dirpath' dirnames' filenames' f,
                (dirpath', dirnames', filenames')
                  ∈ (dirpath, dirnames, filenames) :: rest
                /\ f ∈ filenames'
                /\ extension_filter exts f = Ok true
                /\ p = os_path_join dirpath' f).
    { intros Hin.
      destruct (process_directory_scanned _ _ _ _ _ Hlog _ _ Hin)
        as (f & Hf & Hs & Hj).
      exists dirpath, dirnames, filenames, f.
      split; [apply list_elem_of_here|done]. }
    destruct (outcome (pd n exts quiet dirpath filenames h)) as [h1|e];
      simpl in Hp; [|by apply Hhere].
    apply elem_of_app in Hp as [Hp|Hp]; [by apply Hhere|].
    destruct (IH h1 p Hp) as (d' & dn' & fn' & f & Hd & Hrest).
    exists d', dn', fn', f. split; [by apply list_elem_of_further|done].
Qed.

Lemma walk_scanned rootpath recursive n exts quiet p :
  (forall p q x, x ∈ scanned (analyze p q) -> x = p) ->
  p ∈ scanned (walk rootpath recursive n exts quiet) ->
  exists dirpath f,
    listed fs rootpath recursive dirpath f
    /\ extension_filter exts f = Ok true
    /\ p = os_path_join dirpath f.
Proof.
  intros Hlog. destruct recursive.
  - intros Hp.
    destruct (walk_dirs_scanned _ _ _ _ Hlog _ _ Hp)
      as (dirpath & dirnames & filenames & f & Hd & Hf & Hrest).
    exists dirpath, f. split; [by exists dirnames, filenames|done].
  - rewrite walk_listdir.
    destruct (os_listdir fs rootpath) as [filenames|e] eqn:Hls.
    + intros Hp.
      destruct (process_directory_scanned _ _ _ _ _ Hlog _ _ Hp)
        as (f & Hf & Hrest).
      exists rootpath, f. split; [|done]. split; [done|].
      by exists filenames.
    + intros Hp. by apply elem_of_nil in Hp.
Qed.

(** What [pretty_print_dir] does after the walk. *)
Lemma pretty_print_dir_walk (args : dir_args) :
  pretty_print_dir extension_filter analyze fs args
  = let w := walk (path args) (negb (nonrecursive args)) (n args)
               (str_split ","%char (extensions args)) (quiet args) in
    match outcome w with
    | Ok heap => MkW (scanned w) (report heap (n args) (quiet args))
    | Raise e => MkW (scanned w) (Raise e)
    end.
Proof.
  unfold pretty_print_dir, mbind, W_bind, wbind, lift. simpl.
  destruct (outcome (walk _ _ _ _ _)); simpl; [|done].
  by rewrite app_nil_r.
Qed.

End WalkFacts.

(** * Properties of the extension filter *)

Section CompileFacts.

Lemma plain_char_literal c p top stack :
  plain_char c = true ->
  parse_loop (c :: p) top stack
  = parse_loop p (push_item top (RAtom (ALit c))) stack.
Proof.
  intros Hc. unfold plain_char in Hc. apply negb_true_iff in Hc.
  apply bool_decide_eq_false in Hc.
  assert (Hne : forall x, x ∈ s2l "()|+\.^$*?{}[]" -> c <> x)
    by (intros x Hx ->; done).
  simpl.
  rewrite !bool_decide_eq_false_2
    by (apply Hne; vm_compute; repeat first [left | right; left | right]).
  assert (unsupported_special c = false) as ->; [|done].
  unfold unsupported_special. apply bool_decide_eq_false. intros Hin.
  apply Hc. vm_compute in Hin |- *.
  repeat (apply elem_of_cons in Hin as [->|Hin];
          [repeat first [left | right; left | right]|]).
  by apply elem_of_nil in Hin.
Qed.

Lemma parse_plain e : forall p top stack,
  plain_ext e ->
  parse_loop (e ++ p) top stack
  = parse_loop p
      {| f_alts := f_alts top;
         f_seq := f_seq top ++ map (fun c => RAtom (ALit c)) e |} stack.
Proof.
  induction e as [|c e IH]; intros p top stack He.
  - simpl. rewrite app_nil_r. by destruct top.
  - apply Forall_cons in He as [Hc He].
    change ((c :: e) ++ p) with (c :: (e ++ p)).
    rewrite plain_char_literal by done. rewrite IH by done.
    unfold push_item. simpl. by rewrite <- app_assoc.
Qed.

(** The alternatives between the parentheses of the pattern. *)
Lemma parse_join exts : forall p alts parent stack,
  exts <> [] -> Forall plain_ext exts ->
  parse_loop (str_join (s2l "|") exts ++ ")"%char :: p)
    {| f_alts := alts; f_seq := [] |} (parent :: stack)
  = parse_loop p
      (push_item parent (RGroup (alt_list (alts ++ map lit_regex exts))))
      stack.
Proof.
  induction exts as [|e exts IH]; intros p alts parent stack Hne Hall;
    [done|].
  apply Forall_cons in Hall as [He Hall].
  destruct exts as [|e2 exts].
  - simpl. rewrite parse_plain by done. simpl.
    unfold close_frame, alt_list. simpl. reflexivity.
  - change (str_join (s2l "|") (e :: e2 :: exts))
      with (e ++ s2l "|" ++ str_join (s2l "|") (e2 :: exts)).
    rewrite <- !app_assoc. rewrite parse_plain by done.
    change (s2l "|" ++ str_join (s2l "|") (e2 :: exts) ++ ")"%char :: p)
      with ("|"%char :: (str_join (s2l "|") (e2 :: exts) ++ ")"%char :: p)).
    change (parse_loop ("|"%char :: ?q) ?t ?s)
      with (parse_loop q (next_branch t) s).
    unfold next_branch. simpl f_alts. simpl f_seq.
    rewrite IH by done. do 4 f_equal.
    rewrite <- app_assoc. reflexivity.
Qed.

Lemma parse_prefix p :
  parse_loop (s2l "^.+\.(" ++ p) empty_frame []
  = parse_loop p empty_frame
      [{| f_alts := [];
          f_seq := [RBol; RPlus AAny; RAtom (ALit "."%char)] |}].
Proof. reflexivity. Qed.

Lemma parse_suffix top :
  parse_loop (s2l "$") top [] = Ok (close_frame (push_item top REol)).
Proof. reflexivity. Qed.

(** The pattern the program builds compiles to [ext_regex]. *)
Lemma compile_file_extension_regex exts :
  exts <> [] -> Forall plain_ext exts ->
  re_compile (file_extension_regex exts) = Ok (ext_regex exts).
Proof.
  intros Hne Hall. unfold re_compile, file_extension_regex.
  rewrite parse_prefix.
  change (s2l ")$") with (")"%char :: s2l "$").
  rewrite (parse_join exts (s2l "$") [] _ [] Hne Hall).
  rewrite parse_suffix. reflexivity.
Qed.

End CompileFacts.

Section MatchFacts.
Local Open Scope nat_scope.

Lemma rmatch_seq_of_cons r rs pos s k :
  rmatch (seq_of (r :: rs)) pos s k
  = rmatch r pos s (fun pos' s' => rmatch (seq_of rs) pos' s' k).
Proof. destruct rs; reflexivity. Qed.

(** Closes a goal on the continuation from a hypothesis that differs in
    the way the offset is written. *)
Ltac same_offset Hk :=
  match type of Hk with
  | ?k ?a ?r = true =>
      match goal with
      | |- k ?b r = true => replace b with a by (simpl; lia); exact Hk
      end
  end.

(** A literal text matches a prefix equal to it up to case. *)
Lemma rmatch_lit e : forall pos s k,
  rmatch (lit_regex e) pos s k = true
  <-> exists body rest,
        s = body ++ rest /\ ci_eq e body /\ k (pos + length e) rest = true.
Proof.
  unfold lit_regex, ci_eq.
  induction e as [|c e IH]; intros pos s k.
  - simpl. split.
    + intros Hk. exists [], s. repeat split; try done. same_offset Hk.
    + intros (body & rest & -> & Hb & Hk).
      symmetry in Hb. apply map_eq_nil in Hb. subst. simpl.
      same_offset Hk.
  - rewrite map_cons, rmatch_seq_of_cons. simpl rmatch at 1.
    destruct s as [|x s].
    + split; [done|]. intros (body & rest & Hs & Hb & _).
      symmetry in Hs. apply app_eq_nil in Hs as [-> _]. done.
    + rewrite andb_true_iff, IH. simpl atom_match.
      rewrite bool_decide_eq_true. split.
      * intros (Hx & body & rest & -> & Hb & Hk).
        exists (x :: body), rest. rewrite !map_cons, Hx, Hb.
        repeat split; try done. same_offset Hk.
      * intros (body & rest & Hs & Hb & Hk).
        destruct body as [|y body]; [done|].
        rewrite !map_cons in Hb. simpl in Hs. simplify_eq.
        split; [done|]. exists body, rest. repeat split; try done.
        same_offset Hk.
Qed.

Lemma rmatch_alt_of b bs : forall pos s k,
  rmatch (alt_of b bs) pos s k = true
  <-> exists r, r ∈ b :: bs /\ rmatch r pos s k = true.
Proof.
  revert b. induction bs as [|b' bs IH]; intros b pos s k; simpl.
  - split.
    + intros Hm. exists b. split; [apply list_elem_of_here|done].
    + intros (r & Hr & Hm). by apply list_elem_of_singleton in Hr as ->.
  - rewrite orb_true_iff, IH. split.
    + intros [Hm|(r & Hr & Hm)].
      * exists b. split; [apply list_elem_of_here|done].
      * exists r. split; [by apply list_elem_of_further|done].
    + intros (r & Hr & Hm). apply elem_of_cons in Hr as [->|Hr].
      * by left.
      * right. by exists r.
Qed.

Lemma rmatch_alt_list bs pos s k :
  bs <> [] ->
  rmatch (alt_list bs) pos s k = true
  <-> exists r, r ∈ bs /\ rmatch r pos s k = true.
Proof. destruct bs as [|b bs]; [done|]. intros _. apply rmatch_alt_of. Qed.

(** [.+] matches a non-empty prefix that holds no newline. *)
Lemma plus_match_any s : forall pos k,
  plus_match AAny pos s k = true
  <-> exists pre rest,
        s = pre ++ rest /\ pre <> [] /\ (newline ∉ pre)
        /\ k (pos + length pre) rest = true.
Proof.
  induction s as [|c s IH]; intros pos k.
  - simpl. split; [done|]. intros (pre & rest & Hs & Hne & _).
    symmetry in Hs. apply app_eq_nil in Hs as [-> _]. done.
  - cbn [plus_match atom_match].
    rewrite andb_true_iff, orb_true_iff, negb_true_iff,
      bool_decide_eq_false, IH.
    split.
    + intros [Hc [(pre & rest & -> & Hne & Hnl & Hk)|Hk]].
      * exists (c :: pre), rest. repeat split; try done.
        -- intros [?|?]%elem_of_cons; done.
        -- same_offset Hk.
      * exists [c], s. repeat split; try done.
        -- intros ?%list_elem_of_singleton. done.
        -- same_offset Hk.
    + intros (pre & rest & Hs & Hne & Hnl & Hk).
      destruct pre as [|x pre]; [done|].
      rewrite <- app_comm_cons in Hs. simplify_eq.
      split.
      * intros ->. apply Hnl, list_elem_of_here.
      * destruct pre as [|y pre].
        -- right. rewrite app_nil_l. same_offset Hk.
        -- left. exists (y :: pre), rest. repeat split; try done.
           ++ intros Hin. apply Hnl. by apply list_elem_of_further.
           ++ same_offset Hk.
Qed.

Lemma at_end_spec tail : at_end tail = true <-> tail = [] \/ tail = [newline].
Proof.
  destruct tail as [|c [|c' tail]]; simpl.
  - split; [by left|done].
  - rewrite bool_decide_eq_true. split.
    + intros ->. by right.
    + intros [?|?]; by simplify_eq.
  - split; [done|]. intros [?|?]; done.
Qed.

Lemma lower_is_dot x : ascii_lower "."%char = ascii_lower x <-> x = "."%char.
Proof.
  split; [|by intros ->].
  destruct x as [[] [] [] [] [] [] [] []]; vm_compute; intros Hx;
    first [reflexivity | discriminate Hx].
Qed.

(** What the compiled pattern accepts. *)
Lemma re_match_ext_regex exts filename :
  exts <> [] ->
  re_match (ext_regex exts) filename = true <-> selected_name exts filename.
Proof.
  intros Hne. unfold re_match, ext_regex, selected_name.
  cbn [rmatch]. rewrite andb_true_iff, bool_decide_eq_true.
  rewrite plus_match_any. split.
  - intros (_ & pre & rest & -> & Hpre & Hnl & Hm).
    destruct rest as [|x rest]; [done|].
    apply andb_true_iff in Hm as [Hx Hm]. simpl in Hx.
    apply bool_decide_eq_true, lower_is_dot in Hx as ->.
    apply rmatch_alt_list in Hm; [|by destruct exts].
    destruct Hm as (r & Hr & Hm).
    apply list_elem_of_fmap in Hr as (e & -> & He).
    apply rmatch_lit in Hm as (body & tail & -> & Hb & Hend).
    apply andb_true_iff in Hend as [Hend _].
    apply at_end_spec in Hend.
    by exists e, pre, body, tail.
  - intros (e & pre & body & tail & He & Hb & -> & Hpre & Hnl & Hend).
    split; [done|]. exists pre, ("."%char :: body ++ tail).
    repeat split; try done.
    apply andb_true_iff. split; [by apply bool_decide_eq_true|].
    apply rmatch_alt_list; [by destruct exts|].
    exists (lit_regex e). split; [by apply list_elem_of_fmap_2|].
    apply rmatch_lit. exists body, tail. repeat split; try done.
    apply andb_true_iff. split; [by apply at_end_spec|done].
Qed.

End MatchFacts.

(** C6, as the code has it: for a non-empty list of extensions that hold
    no character special in a pattern, the filter selects exactly the
    names made of a non-empty part with no newline, a dot, one of the
    extensions up to the case of letters, and at most a newline that ends
    the name; on the examples, [cpp] selects [foo.cpp] and not
    [foo.cpp.bak], and [h] selects [a.h] and [b.H] and not [a.hpp]. *)
Theorem extension_filter_selects (exts : list (list ascii))
    (filename : list ascii) :
  exts <> [] -> Forall plain_ext exts ->
  (exists b, file_extension_supported exts filename = Ok b
     /\ (b = true <-> selected_name exts filename))
  /\ file_extension_supported [s2l "cpp"] (s2l "foo.cpp") = Ok true
  /\ file_extension_supported [s2l "cpp"] (s2l "foo.cpp.bak") = Ok false
  /\ file_extension_supported [s2l "h"] (s2l "a.h") = Ok true
  /\ file_extension_supported [s2l "h"] (s2l "a.hpp") = Ok false
  /\ file_extension_supported [s2l "h"] (s2l "b.H") = Ok true.
Proof.
  intros Hne Hall. split; [|by repeat split].
  unfold file_extension_supported.
  rewrite compile_file_extension_regex by done. simpl.
  eexists. split; [done|]. by apply re_match_ext_regex.
Qed.

Lemma extension_filter_selects_witness :
  [s2l "java"; s2l "cpp"; s2l "c"; s2l "h"] <> []
  /\ Forall plain_ext [s2l "java"; s2l "cpp"; s2l "c"; s2l "h"]
  /\ exists b,
      file_extension_supported [s2l "java"; s2l "cpp"; s2l "c"; s2l "h"]
        (s2l "Main.JAVA") = Ok b
      /\ (b = true
          <-> selected_name [s2l "java"; s2l "cpp"; s2l "c"; s2l "h"]
                (s2l "Main.JAVA")).
Proof.
  assert (Hplain : Forall plain_ext [s2l "java"; s2l "cpp"; s2l "c"; s2l "h"]).
  { repeat constructor. }
  split; [done|]. split; [exact Hplain|].
  apply (extension_filter_selects [s2l "java"; s2l "cpp"; s2l "c"; s2l "h"]
           (s2l "Main.JAVA")); [done|exact Hplain].
Defined.

(** C6 as stated fails: the name [.h] ends with a dot followed by the
    extension [h], and the filter does not select it. *)
Lemma dot_name_ends_with_ext_not_selected :
  ~ (forall (exts : list (list ascii)) (filename : list ascii),
        exts <> [] ->
        (file_extension_supported exts filename = Ok true
         <-> ends_with_ext exts filename)).
Proof.
  intros Hclaim.
  destruct (Hclaim [s2l "h"] (s2l ".h")) as [_ Hsel]; [done|].
  assert (Hends : ends_with_ext [s2l "h"] (s2l ".h")).
  { exists (s2l "h"), [], (s2l "h").
    split; [apply list_elem_of_here|]. by split. }
  apply Hsel in Hends. vm_compute in Hends. discriminate Hends.
Qed.

(** Two more names on which the rule of the suffix fails: a name that ends
    with a newline after the extension is selected, and an extension that
    holds a repetition mark makes the filter raise. *)
Example newline_after_extension_selected :
  file_extension_supported [s2l "h"] (s2l "a.h" ++ [newline]) = Ok true.
Proof. reflexivity. Qed.

Example special_extension_raises :
  file_extension_supported [s2l "c++"] (s2l "a.c++") = Raise ReError.
Proof. reflexivity. Qed.

(** C10, as the code has it: when the extensions hold no dot and no other
    character special in a pattern, a name that is a dot followed by one
    of them is not selected. *)
Theorem dot_extension_not_selected (exts : list (list ascii))
    (e : list ascii) :
  Forall plain_ext exts -> e ∈ exts ->
  file_extension_supported exts ("."%char :: e) = Ok false.
Proof.
  intros Hall He.
  assert (Hne : exts <> []) by (intros ->; by apply elem_of_nil in He).
  unfold file_extension_supported.
  rewrite compile_file_extension_regex by done. simpl. f_equal.
  apply not_true_is_false. intros Hm.
  apply re_match_ext_regex in Hm; [|done].
  destruct Hm as (e' & pre & body & tail & _ & _ & Hname & Hpre & _ & _).
  destruct pre as [|x pre]; [done|].
  rewrite <- app_comm_cons in Hname. simplify_eq.
  rewrite Forall_forall in Hall. specialize (Hall _ He).
  unfold plain_ext in Hall. rewrite Forall_forall in Hall.
  assert (Hdot : plain_char "."%char = true).
  { apply Hall. apply elem_of_app. right. apply list_elem_of_here. }
  vm_compute in Hdot. discriminate Hdot.
Qed.

Lemma dot_extension_not_selected_witness :
  Forall plain_ext [s2l "c"; s2l "h"]
  /\ s2l "h" ∈ [s2l "c"; s2l "h"]
  /\ file_extension_supported [s2l "c"; s2l "h"] ("."%char :: s2l "h")
     = Ok false.
Proof.
  assert (Hplain : Forall plain_ext [s2l "c"; s2l "h"]).
  { repeat constructor. }
  assert (Hin : s2l "h" ∈ [s2l "c"; s2l "h"]).
  { apply list_elem_of_further, list_elem_of_here. }
  split; [exact Hplain|]. split; [exact Hin|].
  apply (dot_extension_not_selected [s2l "c"; s2l "h"] (s2l "h"));
    [exact Hplain|exact Hin].
Defined.

(** C10 as stated fails: under the extensions [x.h] and [h] the name
    [.x.h], a dot followed by the extension [x.h], is selected. *)
Lemma dot_extension_selected :
  ~ (forall (exts : list (list ascii)) (e : list ascii),
        e ∈ exts ->
        file_extension_supported exts ("."%char :: e) <> Ok true).
Proof.
  intros Hclaim.
  apply (Hclaim [s2l "x.h"; s2l "h"] (s2l "x.h")).
  - apply list_elem_of_here.
  - reflexivity.
Qed.

(** The bounded heap on six results of maximum depths 1, 4, 2, 5, 3, 0 with
    capacity 3: the results of depths 3, 4, 5 are retained and drained in
    this order. *)
Example top_three_of_six :
  let result_of d := Analysis d (replicate (Z.to_nat d) 1) [] (s2l "f.c") in
  (h ← offer_all 3 (map result_of [1; 4; 2; 5; 3; 0]); drain 3 h)
  = Ok (map result_of [3; 4; 5]).
Proof. reflexivity. Qed.

(** * Further properties of the scanner *)

Section ScannerMore.

Variable LINE_SEPARATOR : list ascii.

Lemma scan_step_other quiet st c :
  is_brace c = false -> scan_step quiet st c = Ok st.
Proof.
  unfold is_brace, scan_step. intros Hc.
  apply orb_false_iff in Hc as [Hl Hr].
  apply bool_decide_eq_false in Hl, Hr.
  destruct (Ascii.eqb_spec c lbrace); [done|].
  by destruct (Ascii.eqb_spec c rbrace).
Qed.

Lemma scan_loop_filter quiet text : forall st,
  scan_loop quiet (filter (fun c => is_brace c = true) text) st
  = scan_loop quiet text st.
Proof.
  induction text as [|c text IH]; intros st; [done|].
  rewrite filter_cons. destruct (is_brace c) eqn:Hc.
  - rewrite decide_True by done. simpl.
    destruct (scan_step quiet st c); simpl; [apply IH|done].
  - rewrite decide_False by done. simpl.
    rewrite scan_step_other by done. simpl. apply IH.
Qed.

(** With line 85 read as [==]: characters other than the two delimiters play no part: the scan of a
    text is the scan of its delimiters alone, exception included. *)
Theorem other_characters_ignored (source_code filename : list ascii)
    (quiet : bool) :
  extract_braces LINE_SEPARATOR
    (filter (fun c => is_brace c = true) source_code) filename quiet
  = extract_braces LINE_SEPARATOR source_code filename quiet.
Proof. unfold extract_braces. by rewrite scan_loop_filter. Qed.

Lemma py_index_raises len i e : py_index len i = Raise e -> e = IndexError.
Proof.
  unfold py_index. repeat case_match; intros; by simplify_eq.
Qed.

Lemma increment_raises ds d e :
  increment_depth_occurence ds d = Raise e -> e = IndexError.
Proof.
  unfold increment_depth_occurence, py_getitem, py_setitem.
  destruct (d <? Z.of_nat (length ds)); [|done].
  destruct (py_index (length ds) d) as [k|e'] eqn:Hi; simpl.
  - destruct (ds !! k); simpl; intros; by simplify_eq.
  - intros ?; simplify_eq. by eapply py_index_raises.
Qed.

Lemma scan_loop_raises quiet text : forall st e,
  scan_loop quiet text st = Raise e -> e = IndexError.
Proof.
  induction text as [|c text IH]; intros st e; simpl; [done|].
  destruct (scan_step quiet st c) as [st1|e1] eqn:Hstep; simpl.
  - apply IH.
  - intros ?; simplify_eq. unfold scan_step in Hstep.
    destruct (Ascii.eqb c lbrace).
    + destruct (increment_depth_occurence _ _) as [ds|e2] eqn:Hinc;
        simpl in Hstep; simplify_eq. by eapply increment_raises.
    + by destruct (Ascii.eqb c rbrace).
Qed.

(** With line 85 read as [==]: the only exception the scan raises is [IndexError]. *)
Theorem scan_raises_only_index_error (source_code filename : list ascii)
    (quiet : bool) (e : exn) :
  extract_braces LINE_SEPARATOR source_code filename quiet = Raise e ->
  e = IndexError.
Proof.
  unfold extract_braces.
  destruct (scan_loop quiet source_code scan_init) as [st|e'] eqn:Hs;
    simpl; [done|].
  intros ?; simplify_eq. by eapply scan_loop_raises.
Qed.

End ScannerMore.

Lemma scan_raises_only_index_error_witness :
  extract_braces [newline] (s2l "a}b}c}d{") (s2l "f.c") false
    = Raise IndexError
  /\ IndexError = IndexError.
Proof.
  split; [reflexivity|].
  apply (scan_raises_only_index_error [newline] (s2l "a}b}c}d{")
           (s2l "f.c") false IndexError).
  reflexivity.
Defined.

Section ScannerInvariants.

Variable LINE_SEPARATOR : list ascii.

Lemma increment_counts ds d ds' :
  increment_depth_occurence ds d = Ok ds' ->
  Forall (fun x => 1 <= x) (drop 1 ds) ->
  Forall (fun x => 1 <= x) (drop 1 ds').
Proof.
  unfold increment_depth_occurence, py_getitem, py_setitem.
  intros Hinc Hall. destruct (d <? Z.of_nat (length ds)).
  - destruct (py_index (length ds) d) as [k|e]; simpl in Hinc; [|done].
    destruct (ds !! k) as [x|] eqn:Hx; simpl in Hinc; [|done].
    simplify_eq. destruct ds as [|a ds]; [done|].
    destruct k as [|k]; simpl in *; [done|].
    rewrite drop_0 in *. apply Forall_insert; [done|].
    rewrite Forall_forall in Hall.
    assert (1 <= x) by (eapply Hall, list_elem_of_lookup_2; done). lia.
  - simplify_eq. destruct ds as [|a ds]; simpl.
    + constructor.
    + rewrite drop_0 in *. apply Forall_app. split; [done|].
      repeat constructor. lia.
Qed.

Lemma scan_loop_counts quiet text : forall st st',
  scan_loop quiet text st = Ok st' ->
  Forall (fun x => 1 <= x) (drop 1 (depths st)) ->
  Forall (fun x => 1 <= x) (drop 1 (depths st')).
Proof.
  induction text as [|c text IH]; intros st st' Hs Hall; simpl in Hs.
  - by simplify_eq.
  - apply rbind_ok in Hs as (st1 & Hstep & Hs).
    apply (IH st1 st' Hs). unfold scan_step in Hstep.
    destruct (Ascii.eqb c lbrace).
    + apply rbind_ok in Hstep as (ds & Hinc & Hstep). simplify_eq. simpl.
      by eapply increment_counts.
    + destruct (Ascii.eqb c rbrace); by simplify_eq.
Qed.

(** With line 85 read as [==]: whenever the scan returns, the maximum depth is not negative and no
    entry of the histogram is below one: a level appears in the histogram
    only once it was counted. *)
Theorem histogram_entries_positive (source_code filename : list ascii)
    (quiet : bool) (r : analysis) :
  extract_braces LINE_SEPARATOR source_code filename quiet = Ok r ->
  0 <= max_depth r /\ Forall (fun x => 1 <= x) (depth_counts r).
Proof.
  unfold extract_braces. intros Hr.
  apply rbind_ok in Hr as (st & Hs & Hr). simplify_eq. simpl. split.
  - apply scan_init_nonempty in Hs. lia.
  - unfold slice_from_1. eapply scan_loop_counts; [exact Hs|].
    simpl. constructor.
Qed.

(** With line 85 read as [==]: on a text in which no prefix closes more than it opens, closed at its
    end or not, the scan returns, the histogram sums to the number of
    opening delimiters, and the maximum depth is the greatest nesting level
    of the prefixes. *)
Theorem unclosed_scan (source_code filename : list ascii) (quiet : bool) :
  Forall (fun p => 0 <= depth_of p) (prefixes source_code) ->
  exists r,
    extract_braces LINE_SEPARATOR source_code filename quiet = Ok r
    /\ py_sum (depth_counts r) = count_char lbrace source_code
    /\ max_depth r = reference_max_depth source_code.
Proof.
  intros Hpre.
  destruct (scan_loop_nonneg quiet source_code scan_init)
    as (st & Hrun & _ & Hlen & Hsum).
  { simpl. lia. }
  { eapply Forall_impl; [exact Hpre|]. intros p Hp. simpl in *. lia. }
  unfold extract_braces. rewrite Hrun. simpl. eexists. split; [done|].
  simpl in *. unfold slice_from_1. split; [lia|].
  rewrite reference_max_depth_peak, Hlen.
  pose proof (peak_ge 0 source_code). lia.
Qed.

Lemma increment_tolerant ds d :
  ds <> [] -> -1 <= d ->
  exists ds', increment_depth_occurence ds d = Ok ds' /\ ds' <> [].
Proof.
  intros Hne Hd. unfold increment_depth_occurence.
  assert (Hlen : (0 < length ds)%nat) by (destruct ds; simpl; [done|lia]).
  destruct (d <? Z.of_nat (length ds)) eqn:E.
  - apply Z.ltb_lt in E. unfold py_getitem, py_setitem.
    assert (exists k, py_index (length ds) d = Ok k /\ (k < length ds)%nat)
      as (k & -> & Hk).
    { unfold py_index. destruct (0 <=? d) eqn:E0.
      - apply Z.leb_le in E0. rewrite (proj2 (Z.ltb_lt _ _)) by lia.
        eexists. split; [done|]. lia.
      - apply Z.leb_gt in E0.
        rewrite (proj2 (Z.leb_le _ _)) by lia.
        eexists. split; [done|]. lia. }
    simpl. destruct (lookup_lt_is_Some_2 ds k Hk) as [x ->]. simpl.
    eexists. split; [done|]. intros Hnil.
    apply (f_equal length) in Hnil. rewrite length_insert in Hnil.
    simpl in Hnil. lia.
  - eexists. split; [done|]. by destruct ds.
Qed.

Lemma scan_loop_tolerant quiet rest : forall st,
  depths st <> [] ->
  Forall (fun p => -2 <= current_depth st + depth_of p) (prefixes rest) ->
  exists st', scan_loop quiet rest st = Ok st'.
Proof.
  induction rest as [|c rest IH]; intros st Hne Hpre; [by exists st|].
  simpl in Hpre. apply Forall_cons in Hpre as [H0 Hpre].
  rewrite depth_of_nil in H0. rewrite Forall_map in Hpre.
  assert (Hrest : Forall
            (fun p => -2 <= current_depth st + delta c + depth_of p)
            (prefixes rest)).
  { eapply Forall_impl; [exact Hpre|]. intros p Hp. simpl in Hp.
    rewrite depth_of_cons in Hp. lia. }
  simpl. unfold scan_step, delta in *.
  destruct (Ascii.eqb_spec c lbrace) as [->|Hl].
  - rewrite decide_True in Hrest by done.
    destruct (increment_tolerant (depths st) (current_depth st + 1))
      as (ds' & -> & Hne'); [done|lia|]. simpl.
    apply IH; simpl; done.
  - rewrite (decide_False (P := c = lbrace)) in Hrest by done.
    destruct (Ascii.eqb_spec c rbrace) as [->|Hr]; simpl.
    + rewrite decide_True in Hrest by done. apply IH; simpl; [done|].
      eapply Forall_impl; [exact Hrest|]. intros p Hp. simpl in *. lia.
    + rewrite (decide_False (P := c = rbrace)) in Hrest by done.
      apply IH; [done|].
      eapply Forall_impl; [exact Hrest|]. intros p Hp. simpl in *. lia.
Qed.

(** With line 85 read as [==]: the scan returns on every text in which no prefix closes more than
    two delimiters beyond those it opens. *)
Theorem scan_tolerates_two_unmatched (source_code filename : list ascii)
    (quiet : bool) :
  Forall (fun p => -2 <= depth_of p) (prefixes source_code) ->
  exists r, extract_braces LINE_SEPARATOR source_code filename quiet = Ok r.
Proof.
  intros Hpre.
  destruct (scan_loop_tolerant quiet source_code scan_init) as [st Hrun].
  { done. }
  { eapply Forall_impl; [exact Hpre|]. intros p Hp. simpl in *. lia. }
  unfold extract_braces. rewrite Hrun. simpl. by eexists.
Qed.

Lemma str_mul_INDENT d :
  str_mul INDENT d = replicate (4 * Z.to_nat d) " "%char.
Proof.
  unfold str_mul. destruct (d <=? 0) eqn:E.
  - apply Z.leb_le in E. by replace (Z.to_nat d) with 0%nat by lia.
  - induction (Z.to_nat d) as [|k IH]; [done|].
    replace (4 * S k)%nat with (4 + 4 * k)%nat by lia.
    rewrite replicate_add.
    change (mjoin (replicate (S k) INDENT))
      with (INDENT ++ mjoin (replicate k INDENT)).
    rewrite IH. reflexivity.
Qed.

Lemma scan_loop_render text : forall st st',
  scan_loop false text st = Ok st' ->
  braces st' = braces st ++ render_from (current_depth st) text.
Proof.
  induction text as [|c text IH]; intros st st' Hs; simpl in Hs.
  - simplify_eq. by rewrite app_nil_r.
  - apply rbind_ok in Hs as (st1 & Hstep & Hs).
    apply IH in Hs. rewrite Hs. clear Hs.
    unfold scan_step in Hstep. cbn [render_from].
    destruct (Ascii.eqb_spec c lbrace) as [->|Hl].
    + apply rbind_ok in Hstep as (ds & _ & Hstep). simplify_eq. simpl.
      rewrite <- app_assoc. unfold indented. by rewrite str_mul_INDENT.
    + rewrite (decide_False (P := c = lbrace)) by done.
      destruct (Ascii.eqb_spec c rbrace) as [->|Hr]; simplify_eq; simpl.
      * rewrite <- app_assoc. unfold indented. by rewrite str_mul_INDENT.
      * by rewrite (decide_False (P := c = rbrace)) by done.
Qed.

(** With line 85 read as [==]: with rendering enabled, whenever the scan returns, the rendered
    structure is one line per delimiter, joined by the line separator: an
    opening delimiter after four spaces per level it is met at, a closing
    one after four spaces per level it returns to, and no space at all at
    the levels below zero. *)
Theorem rendering_lines (source_code filename : list ascii) (r : analysis) :
  extract_braces LINE_SEPARATOR source_code filename false = Ok r ->
  rendered r = str_join LINE_SEPARATOR (render_from 0 source_code).
Proof.
  unfold extract_braces. intros Hr.
  apply rbind_ok in Hr as (st & Hs & Hr). simplify_eq. simpl.
  by rewrite (scan_loop_render _ _ _ Hs).
Qed.

End ScannerInvariants.

Lemma histogram_entries_positive_witness :
  extract_braces [newline] (s2l "{}}{{}") (s2l "f.c") true
    = Ok (Analysis 1 [2] [] (s2l "f.c"))
  /\ 0 <= max_depth (Analysis 1 [2] [] (s2l "f.c"))
  /\ Forall (fun x => 1 <= x) (depth_counts (Analysis 1 [2] [] (s2l "f.c"))).
Proof.
  split; [reflexivity|].
  apply (histogram_entries_positive [newline] (s2l "{}}{{}") (s2l "f.c")
           true).
  reflexivity.
Defined.

Lemma unclosed_scan_witness :
  Forall (fun p => 0 <= depth_of p) (prefixes (s2l "{{}"))
  /\ exists r,
      extract_braces [newline] (s2l "{{}") (s2l "f.c") false = Ok r
      /\ py_sum (depth_counts r) = count_char lbrace (s2l "{{}")
      /\ max_depth r = reference_max_depth (s2l "{{}").
Proof.
  assert (Hpre : Forall (fun p => 0 <= depth_of p) (prefixes (s2l "{{}"))).
  { repeat constructor; vm_compute; discriminate. }
  split; [exact Hpre|].
  apply (unclosed_scan [newline] (s2l "{{}") (s2l "f.c") false). exact Hpre.
Defined.

Lemma scan_tolerates_two_unmatched_witness :
  Forall (fun p => -2 <= depth_of p) (prefixes (s2l "}}{{"))
  /\ exists r, extract_braces [newline] (s2l "}}{{") (s2l "f.c") false = Ok r.
Proof.
  assert (Hpre : Forall (fun p => -2 <= depth_of p) (prefixes (s2l "}}{{"))).
  { repeat constructor; vm_compute; discriminate. }
  split; [exact Hpre|].
  apply (scan_tolerates_two_unmatched [newline] (s2l "}}{{") (s2l "f.c")
           false).
  exact Hpre.
Defined.

Lemma rendering_lines_witness :
  extract_braces [newline] (s2l "}{{") (s2l "f.c") false
    = Ok (Analysis 1 [1] (s2l "}" ++ [newline] ++ s2l "{" ++ [newline]
                            ++ s2l "{") (s2l "f.c"))
  /\ rendered (Analysis 1 [1] (s2l "}" ++ [newline] ++ s2l "{" ++ [newline]
                                 ++ s2l "{") (s2l "f.c"))
     = str_join [newline] (render_from 0 (s2l "}{{")).
Proof.
  split; [reflexivity|].
  apply (rendering_lines [newline] (s2l "}{{") (s2l "f.c")). reflexivity.
Defined.

(** * Splitting and joining *)

Section SplitJoin.

Lemma str_split_cons_sep sep s : str_split sep (sep :: s) = [] :: str_split sep s.
Proof. simpl. by rewrite bool_decide_eq_true_2. Qed.

Lemma str_split_nonempty sep s : str_split sep s <> [].
Proof.
  destruct s as [|c s]; simpl; [done|].
  destruct (bool_decide (c = sep)); [done|].
  by destruct (str_split sep s).
Qed.

Lemma str_split_cons_other sep c s :
  c <> sep ->
  exists w ws, str_split sep s = w :: ws
    /\ str_split sep (c :: s) = (c :: w) :: ws.
Proof.
  intros Hc. simpl. rewrite bool_decide_eq_false_2 by done.
  destruct (str_split sep s) as [|w ws] eqn:Hs.
  - by apply str_split_nonempty in Hs.
  - by exists w, ws.
Qed.

Lemma str_join_cons sep x y rest :
  str_join sep (x :: y :: rest) = x ++ sep ++ str_join sep (y :: rest).
Proof. reflexivity. Qed.

(** X7: joining the words of a split by the separator gives the text back;
    the split is never empty and no word of it holds the separator
    ([sep.join(s.split(sep)) == s]). *)
Theorem join_split (sep : ascii) (s : list ascii) :
  str_join [sep] (str_split sep s) = s
  /\ str_split sep s <> []
  /\ Forall (fun w => sep ∉ w) (str_split sep s).
Proof.
  split; [|split; [apply str_split_nonempty|]].
  - induction s as [|c s IH]; [done|].
    destruct (decide (c = sep)) as [->|Hc].
    + rewrite str_split_cons_sep.
      destruct (str_split sep s) as [|w ws] eqn:Hs;
        [by apply str_split_nonempty in Hs|].
      rewrite str_join_cons, IH. reflexivity.
    + destruct (str_split_cons_other sep c s Hc) as (w & ws & Hs & ->).
      rewrite Hs in IH. destruct ws as [|w' ws].
      * simpl in *. by rewrite IH.
      * rewrite str_join_cons in *. rewrite <- app_comm_cons.
        by rewrite IH.
  - induction s as [|c s IH].
    + repeat constructor. apply not_elem_of_nil.
    + destruct (decide (c = sep)) as [->|Hc].
      * rewrite str_split_cons_sep. constructor; [apply not_elem_of_nil|done].
      * destruct (str_split_cons_other sep c s Hc) as (w & ws & Hs & ->).
        rewrite Hs in IH. apply Forall_cons in IH as [Hw Hws].
        constructor; [|done]. intros [?|?]%elem_of_cons; done.
Qed.

Lemma str_split_word sep w :
  sep ∉ w -> str_split sep w = [w].
Proof.
  induction w as [|c w IH]; intros Hw; [done|].
  apply not_elem_of_cons in Hw as [Hc Hw].
  destruct (str_split_cons_other sep c w (not_eq_sym Hc))
    as (w' & ws & Hs & ->).
  rewrite IH in Hs by done. by simplify_eq.
Qed.

Lemma str_split_word_sep sep w rest :
  sep ∉ w -> str_split sep (w ++ sep :: rest) = w :: str_split sep rest.
Proof.
  induction w as [|c w IH]; intros Hw.
  - apply str_split_cons_sep.
  - apply not_elem_of_cons in Hw as [Hc Hw].
    rewrite <- app_comm_cons.
    destruct (str_split_cons_other sep c (w ++ sep :: rest)
                (not_eq_sym Hc)) as (w' & ws & Hs & ->).
    rewrite IH in Hs by done. by simplify_eq.
Qed.

(** X8: splitting a text joined from a non-empty list of words that do not
    hold the separator gives the words back. *)
Theorem split_join (sep : ascii) (words : list (list ascii)) :
  words <> [] -> Forall (fun w => sep ∉ w) words ->
  str_split sep (str_join [sep] words) = words.
Proof.
  intros Hne Hall. induction words as [|w words IH]; [done|].
  apply Forall_cons in Hall as [Hw Hall].
  destruct words as [|w2 words].
  - simpl. by apply str_split_word.
  - rewrite str_join_cons.
    change (w ++ [sep] ++ str_join [sep] (w2 :: words))
      with (w ++ sep :: str_join [sep] (w2 :: words)).
    rewrite str_split_word_sep by done. by rewrite IH.
Qed.

End SplitJoin.

Lemma split_join_witness :
  [s2l "java"; s2l "cpp"; []; s2l "h"] <> []
  /\ Forall (fun w => ","%char ∉ w) [s2l "java"; s2l "cpp"; []; s2l "h"]
  /\ str_split ","%char
       (str_join [","%char] [s2l "java"; s2l "cpp"; []; s2l "h"])
     = [s2l "java"; s2l "cpp"; []; s2l "h"].
Proof.
  assert (Hall : Forall (fun w => ","%char ∉ w)
                   [s2l "java"; s2l "cpp"; []; s2l "h"]).
  { repeat constructor; intros Hin; vm_compute in Hin;
      repeat (apply elem_of_cons in Hin as [Hin|Hin]; [discriminate Hin|]);
      by apply elem_of_nil in Hin. }
  split; [done|]. split; [exact Hall|].
  apply (split_join ","%char [s2l "java"; s2l "cpp"; []; s2l "h"]);
    [done|exact Hall].
Defined.

(** * Further properties of the extension filter *)

Section FilterMore.

Lemma lower_idem x : ascii_lower (ascii_lower x) = ascii_lower x.
Proof. destruct x as [[] [] [] [] [] [] [] []]; reflexivity. Qed.

Lemma lower_is_newline x : ascii_lower x = newline <-> x = newline.
Proof.
  split; [|by intros ->].
  destruct x as [[] [] [] [] [] [] [] []]; vm_compute; intros Hx;
    first [reflexivity | discriminate Hx].
Qed.

Lemma map_lower_idem (s : list ascii) :
  map ascii_lower (map ascii_lower s) = map ascii_lower s.
Proof. rewrite map_map. apply map_ext. intros x. apply lower_idem. Qed.

Lemma newline_in_lower (s : list ascii) :
  newline ∈ map ascii_lower s <-> newline ∈ s.
Proof.
  rewrite !list_elem_of_In, in_map_iff. split.
  - intros (x & Hx & Hin). apply (proj1 (lower_is_newline x)) in Hx.
    by subst.
  - intros Hin. by exists newline.
Qed.

Lemma selected_name_lower exts filename :
  selected_name exts (map ascii_lower filename) <-> selected_name exts filename.
Proof.
  unfold selected_name, ci_eq. split.
  - intros (e & pre & body & tail & He & Hb & Hname & Hpre & Hnl & Hend).
    apply map_eq_app in Hname as (pre0 & rest0 & -> & <- & Hrest).
    apply map_eq_cons in Hrest as (x & rest1 & -> & Hx & Hrest).
    apply map_eq_app in Hrest as (body0 & tail0 & -> & <- & <-).
    symmetry in Hx. apply (proj1 (lower_is_dot x)) in Hx as ->.
    exists e, pre0, body0, tail0. split; [done|].
    split; [by rewrite Hb, map_lower_idem|]. split; [done|].
    split; [by destruct pre0|]. split; [by rewrite <- newline_in_lower|].
    destruct Hend as [Ht|Ht].
    + left. by destruct tail0.
    + right. destruct tail0 as [|y [|z tail0]]; simplify_eq/=.
      f_equal. by apply (proj1 (lower_is_newline y)).
  - intros (e & pre & body & tail & He & Hb & -> & Hpre & Hnl & Hend).
    exists e, (map ascii_lower pre), (map ascii_lower body),
      (map ascii_lower tail).
    split; [done|]. split; [by rewrite map_lower_idem|].
    split; [by rewrite map_app, map_cons, map_app|].
    split; [by destruct pre|]. split; [by rewrite newline_in_lower|].
    destruct Hend as [->| ->]; [by left|by right].
Qed.

Lemma supported_selected exts filename :
  exts <> [] -> Forall plain_ext exts ->
  exists b, file_extension_supported exts filename = Ok b
    /\ (b = true <-> selected_name exts filename).
Proof.
  intros Hne Hall. unfold file_extension_supported.
  rewrite compile_file_extension_regex by done. simpl.
  eexists. split; [done|]. by apply re_match_ext_regex.
Qed.

Lemma supported_ext_eq exts1 exts2 name1 name2 :
  exts1 <> [] -> Forall plain_ext exts1 ->
  exts2 <> [] -> Forall plain_ext exts2 ->
  (selected_name exts1 name1 <-> selected_name exts2 name2) ->
  file_extension_supported exts1 name1 = file_extension_supported exts2 name2.
Proof.
  intros Hne1 Hall1 Hne2 Hall2 Hiff.
  destruct (supported_selected exts1 name1 Hne1 Hall1) as (b1 & -> & H1).
  destruct (supported_selected exts2 name2 Hne2 Hall2) as (b2 & -> & H2).
  f_equal. destruct b1, b2; try done.
  - symmetry. apply H2, Hiff, H1. done.
  - apply H1, Hiff, H2. done.
Qed.

(** X9: the filter does not look at the case of the letters of the file
    name, when the extensions hold no character special in a pattern. *)
Theorem filter_ignores_case (exts : list (list ascii))
    (filename : list ascii) :
  exts <> [] -> Forall plain_ext exts ->
  file_extension_supported exts (map ascii_lower filename)
  = file_extension_supported exts filename.
Proof.
  intros Hne Hall. apply supported_ext_eq; try done.
  apply selected_name_lower.
Qed.

(** X10: the order of the extensions and their repetitions do not matter,
    when they hold no character special in a pattern. *)
Theorem filter_ignores_order (exts1 exts2 : list (list ascii))
    (filename : list ascii) :
  exts1 <> [] -> Forall plain_ext exts1 -> Forall plain_ext exts2 ->
  (forall e, e ∈ exts1 <-> e ∈ exts2) ->
  file_extension_supported exts1 filename
  = file_extension_supported exts2 filename.
Proof.
  intros Hne Hall1 Hall2 Hsame.
  assert (Hne2 : exts2 <> []).
  { destruct exts1 as [|e exts1]; [done|]. intros ->.
    eapply elem_of_nil, Hsame, list_elem_of_here. }
  apply supported_ext_eq; try done.
  unfold selected_name. split.
  - intros (e & pre & body & tail & He & Hrest).
    exists e, pre, body, tail. split; [by apply Hsame|done].
  - intros (e & pre & body & tail & He & Hrest).
    exists e, pre, body, tail. split; [by apply Hsame|done].
Qed.

(** X11: with an empty [--extensions] text the list of extensions is the
    empty extension alone, and the filter selects the names that end with
    a dot after at least one character. *)
Theorem empty_extensions_text (filename : list ascii) :
  exists b,
    file_extension_supported (str_split ","%char []) filename = Ok b
    /\ (b = true
        <-> exists pre tail,
              filename = pre ++ "."%char :: tail
              /\ pre <> [] /\ (newline ∉ pre)
              /\ (tail = [] \/ tail = [newline])).
Proof.
  destruct (supported_selected [[]] filename) as (b & Hb & Hiff).
  { done. }
  { repeat constructor. }
  exists b. split; [exact Hb|]. rewrite Hiff. unfold selected_name, ci_eq.
  split.
  - intros (e & pre & body & tail & He & Hbody & -> & Hpre & Hnl & Hend).
    apply list_elem_of_singleton in He as ->.
    symmetry in Hbody. apply map_eq_nil in Hbody as ->.
    by exists pre, tail.
  - intros (pre & tail & -> & Hpre & Hnl & Hend).
    exists [], pre, [], tail. split; [apply list_elem_of_here|]. done.
Qed.

End FilterMore.

Lemma filter_ignores_case_witness :
  [s2l "c"; s2l "h"] <> []
  /\ Forall plain_ext [s2l "c"; s2l "h"]
  /\ file_extension_supported [s2l "c"; s2l "h"]
       (map ascii_lower (s2l "Main.H"))
     = file_extension_supported [s2l "c"; s2l "h"] (s2l "Main.H").
Proof.
  assert (Hplain : Forall plain_ext [s2l "c"; s2l "h"]).
  { repeat constructor. }
  split; [done|]. split; [exact Hplain|].
  apply (filter_ignores_case [s2l "c"; s2l "h"] (s2l "Main.H"));
    [done|exact Hplain].
Defined.

Lemma filter_ignores_order_witness :
  [s2l "c"; s2l "h"] <> []
  /\ Forall plain_ext [s2l "c"; s2l "h"]
  /\ Forall plain_ext [s2l "h"; s2l "c"; s2l "h"]
  /\ file_extension_supported [s2l "c"; s2l "h"] (s2l "a.h")
     = file_extension_supported [s2l "h"; s2l "c"; s2l "h"] (s2l "a.h").
Proof.
  assert (H1 : Forall plain_ext [s2l "c"; s2l "h"]).
  { repeat constructor. }
  assert (H2 : Forall plain_ext [s2l "h"; s2l "c"; s2l "h"]).
  { repeat constructor. }
  split; [done|]. split; [exact H1|]. split; [exact H2|].
  apply (filter_ignores_order [s2l "c"; s2l "h"] [s2l "h"; s2l "c"; s2l "h"]
           (s2l "a.h")); [done|exact H1|exact H2|].
  intros e. rewrite !elem_of_cons, !elem_of_nil. tauto.
Defined.

(** * Further properties of [heapq] and of the bounded heap *)

Section HeapMore.
Context {A : Type} `{PyOrdLaws A}.

(** X12: [heapq.heappush] on a heap never raises; it leaves a heap that holds
    the items of the old one and the new item. *)
Theorem heappush_keeps_heap (h : list A) (x : A) :
  is_heap h ->
  exists h', Heapq.heappush h x = Ok h' /\ is_heap h' /\ h' ≡ₚ x :: h.
Proof. apply heappush_spec. Qed.

(** X13: [heapq.heappop] raises [IndexError] on the empty list; on a heap that
    is not empty it hands back an item that no other item is below, and
    leaves a heap of the other items. *)
Theorem heappop_least (h : list A) :
  Heapq.heappop (@nil A) = Raise IndexError
  /\ (is_heap h -> h <> [] ->
      exists x h', Heapq.heappop h = Ok (x, h')
        /\ is_heap h' /\ h ≡ₚ x :: h' /\ forall y, y ∈ h -> py_le x y).
Proof. split; [done|]. apply heappop_spec. Qed.

(** X14: [heapq.heappushpop] on a heap never raises; of the item and the items
    of the heap it hands back one that none of the others is below, and
    leaves a heap of the others. *)
Theorem heappushpop_least (h : list A) (x : A) :
  is_heap h ->
  exists out h', Heapq.heappushpop h x = Ok (out, h')
    /\ is_heap h' /\ out :: h' ≡ₚ x :: h
    /\ forall y, y ∈ h' -> py_le out y.
Proof.
  intros Hh.
  destruct (heappushpop_spec h x Hh) as (out & h' & Hrun & Hh' & Hperm & Hc).
  exists out, h'. repeat (split; [done|]). intros y Hy.
  destruct (h !! 0%nat) as [m|] eqn:Hm.
  - pose proof (heap_root_least h m Hh Hm) as Hmin.
    destruct (py_lt m x) eqn:Hmx.
    + subst out.
      assert (Hy' : y ∈ x :: h).
      { rewrite <- Hperm. by apply list_elem_of_further. }
      apply elem_of_cons in Hy' as [->|Hy'];
        [by apply py_lt_le|by apply Hmin].
    + destruct Hc as [-> ->].
      eapply py_le_trans; [exact Hmx|]. by apply Hmin.
  - destruct Hc as [-> ->]. apply lookup_ge_None in Hm.
    destruct h; [by apply elem_of_nil in Hy|simpl in Hm; lia].
Qed.

End HeapMore.

Lemma heappush_keeps_heap_witness :
  is_heap [1; 3; 2]
  /\ exists h', Heapq.heappush [1; 3; 2] 0 = Ok h'
       /\ is_heap h' /\ h' ≡ₚ 0 :: [1; 3; 2].
Proof.
  assert (Hh : is_heap [1; 3; 2]).
  { intros [|[|[|i]]] x p Hi Hx Hp; simplify_eq/=; done. }
  split; [exact Hh|].
  apply (heappush_keeps_heap [1; 3; 2] 0). exact Hh.
Defined.

Lemma heappop_least_witness :
  is_heap [1; 3; 2] /\ [1; 3; 2] <> []
  /\ exists x h', Heapq.heappop [1; 3; 2] = Ok (x, h')
       /\ is_heap h' /\ [1; 3; 2] ≡ₚ x :: h'
       /\ forall y, y ∈ [1; 3; 2] -> py_le x y.
Proof.
  assert (Hh : is_heap [1; 3; 2]).
  { intros [|[|[|i]]] x p Hi Hx Hp; simplify_eq/=; done. }
  split; [exact Hh|]. split; [done|].
  apply (heappop_least [1; 3; 2]); [exact Hh|done].
Defined.

Lemma heappushpop_least_witness :
  is_heap [1; 3; 2]
  /\ exists out h', Heapq.heappushpop [1; 3; 2] 5 = Ok (out, h')
       /\ is_heap h' /\ out :: h' ≡ₚ 5 :: [1; 3; 2]
       /\ forall y, y ∈ h' -> py_le out y.
Proof.
  assert (Hh : is_heap [1; 3; 2]).
  { intros [|[|[|i]]] x p Hi Hx Hp; simplify_eq/=; done. }
  split; [exact Hh|].
  apply (heappushpop_least [1; 3; 2] 5). exact Hh.
Defined.

(** X15: when the capacity is at least the number of results offered, none is
    discarded: draining the heap yields all of them in non-decreasing
    order. *)
Theorem ample_capacity_keeps_all (n : Z) (offers : list analysis) :
  Z.of_nat (length offers) <= n ->
  exists h results,
    offer_all n offers = Ok h
    /\ drain (length h) h = Ok results
    /\ results ≡ₚ offers /\ StronglySorted py_le results.
Proof.
  intros Hn. destruct offers as [|x offers].
  - exists [], []. repeat split; try done. constructor.
  - destruct (offer_all_spec n (x :: offers))
      as (h & d & Hrun & Hheap & Hlen & Hperm & _).
    { simpl in Hn. lia. }
    assert (d = []) as ->.
    { apply Permutation_length in Hperm. rewrite length_app in Hperm.
      apply nil_length_inv. lia. }
    rewrite app_nil_r in Hperm.
    destruct (drain_spec (length h) h Hheap)
      as (rs & left & Hdrain & Hrl & Hperm' & Hsort); [done|].
    assert (left = []) as ->.
    { apply Permutation_length in Hperm'. rewrite length_app in Hperm'.
      apply nil_length_inv. lia. }
    rewrite app_nil_r in Hperm'.
    exists h, rs. split; [done|]. split; [done|]. split; [|done].
    by rewrite <- Hperm', <- Hperm.
Qed.

Lemma ample_capacity_keeps_all_witness :
  Z.of_nat (length [Analysis 2 [1; 1] [] (s2l "a.c");
                    Analysis 1 [1] [] (s2l "b.c")]) <= 5
  /\ exists h results,
      offer_all 5 [Analysis 2 [1; 1] [] (s2l "a.c");
                   Analysis 1 [1] [] (s2l "b.c")] = Ok h
      /\ drain (length h) h = Ok results
      /\ results ≡ₚ [Analysis 2 [1; 1] [] (s2l "a.c");
                     Analysis 1 [1] [] (s2l "b.c")]
      /\ StronglySorted py_le results.
Proof.
  split; [simpl; lia|].
  apply (ample_capacity_keeps_all 5
           [Analysis 2 [1; 1] [] (s2l "a.c"); Analysis 1 [1] [] (s2l "b.c")]).
  simpl. lia.
Defined.


(** * Directory mode *)

(** C5: the ordering key is the tuple of maximum depth, histogram,
    rendered text and file name, compared component by component; the
    heap left by any sequence of offers, drained, yields all its results
    in non-decreasing order under that key, and the report of that heap
    prints them in that order, each as the block of [print_result]
    followed by a blank line; and when the walk returns a heap,
    [pretty_print_dir] prints exactly the blocks of all the results of
    the heap, in that order. *)
Theorem dir_report_ascending
    (extension_filter : list (list ascii) -> list ascii -> result bool)
    (analyze : list ascii -> bool -> W analysis) (fs : filesystem)
    (args : dir_args) (heap : list analysis) :
  outcome (walk_through_directory extension_filter analyze fs (path args)
             (negb (nonrecursive args)) (n args)
             (str_split ","%char (extensions args)) (quiet args)) = Ok heap ->
  (forall a b : analysis,
      py_lt a b
      = lex (max_depth a) (max_depth b)
          (lex (depth_counts a) (depth_counts b)
             (lex (rendered a) (rendered b)
                (py_lt (source_id a) (source_id b)))))
  /\ (forall capacity offers h quiet,
        offer_all capacity offers = Ok h ->
        exists results,
          drain (length h) h = Ok results
          /\ results ≡ₚ h /\ StronglySorted py_le results
          /\ report h capacity quiet
             = Ok (flat_map (block quiet) results))
  /\ exists results,
      drain (length heap) heap = Ok results
      /\ results ≡ₚ heap
      /\ StronglySorted py_le results
      /\ outcome (pretty_print_dir extension_filter analyze fs args)
         = Ok (flat_map (block (quiet args)) results).
Proof.
  intros Hwalk. split; [done|]. split.
  { intros capacity offers h quiet Hoff. apply report_all.
    - by eapply offer_all_heap.
    - by eapply offer_all_length. }
  pose proof (walk_is_heap _ _ _ _ _ _ _ _ _ Hwalk) as Hheap.
  pose proof (walk_length _ _ _ _ _ _ _ _ _ Hwalk) as Hlen.
  destruct (report_all heap (n args) (quiet args) Hheap Hlen)
    as (rs & Hrun & Hperm & Hsort & Hrep).
  exists rs. repeat split; try done.
  by rewrite pretty_print_dir_walk; simpl; rewrite Hwalk.
Qed.

(** The walk of the example directory with capacity three: the files are
    offered in the order [a.c], [bb.h], [c.c], and reported by depth. *)
Lemma dir_report_ascending_witness :
  outcome (walk_through_directory example_filter
             (example_analyze example_tree) example_tree (s2l "src")
             true 3 [s2l "c"; s2l "h"] true)
  = Ok [example_result (s2l "{}") (s2l "src/c.c");
        example_result (s2l "{{{{}}}}") (s2l "src/bb.h");
        example_result (s2l "{{}}") (s2l "src/a.c")]
  /\ exists results,
      drain 3 [example_result (s2l "{}") (s2l "src/c.c");
               example_result (s2l "{{{{}}}}") (s2l "src/bb.h");
               example_result (s2l "{{}}") (s2l "src/a.c")] = Ok results
      /\ results
         ≡ₚ [example_result (s2l "{}") (s2l "src/c.c");
             example_result (s2l "{{{{}}}}") (s2l "src/bb.h");
             example_result (s2l "{{}}") (s2l "src/a.c")]
      /\ StronglySorted py_le results
      /\ outcome (pretty_print_dir example_filter
                    (example_analyze example_tree) example_tree
                    (DirArgs (s2l "src") false (s2l "c,h") 3 true))
         = Ok (flat_map (block true) results).
Proof.
  split; [reflexivity|].
  apply (dir_report_ascending example_filter (example_analyze example_tree)
           example_tree (DirArgs (s2l "src") false (s2l "c,h") 3 true)
           [example_result (s2l "{}") (s2l "src/c.c");
            example_result (s2l "{{{{}}}}") (s2l "src/bb.h");
            example_result (s2l "{{}}") (s2l "src/a.c")]).
  reflexivity.
Defined.

(** What is printed in that run, and in the same run with capacity two,
    where [c.c], the least deeply nested, is not retained. *)
Example dir_report_example :
  pretty_print_dir example_filter (example_analyze example_tree)
    example_tree (DirArgs (s2l "src") false (s2l "c,h") 3 true)
  = MkW [s2l "src/a.c"; s2l "src/bb.h"; s2l "src/c.c"]
        (Ok [PrintStr (s2l "src/c.c"); PrintDepths [1]; PrintMaxDepth 1;
             PrintBlank;
             PrintStr (s2l "src/a.c"); PrintDepths [1; 1]; PrintMaxDepth 2;
             PrintBlank;
             PrintStr (s2l "src/bb.h"); PrintDepths [1; 1; 1; 1];
             PrintMaxDepth 4; PrintBlank])
  /\ pretty_print_dir example_filter (example_analyze example_tree)
       example_tree (DirArgs (s2l "src") false (s2l "c,h") 2 false)
     = MkW [s2l "src/a.c"; s2l "src/bb.h"; s2l "src/c.c"]
           (Ok [PrintStr (s2l "src/a.c"); PrintStr (s2l "{{}}");
                PrintDepths [1; 1]; PrintMaxDepth 2; PrintBlank;
                PrintStr (s2l "src/bb.h"); PrintStr (s2l "{{{{}}}}");
                PrintDepths [1; 1; 1; 1]; PrintMaxDepth 4; PrintBlank]).
Proof. split; reflexivity. Qed.



(** The run of the example directory with capacity [0]: the three files
    are analyzed, nothing is raised and nothing is printed. *)
Example zero_capacity_example :
  pretty_print_dir example_filter (example_analyze example_tree)
    example_tree (DirArgs (s2l "src") false (s2l "c,h") 0 true)
  = MkW [s2l "src/a.c"; s2l "src/bb.h"; s2l "src/c.c"] (Ok []).
Proof. reflexivity. Qed.


(** X16: when the walk returns, the heap returned is the one left by
    offering to the bounded heap, in the order of the walk, the results of
    the files analyzed; each of these files is one the walk came across
    and the filter selected, each was analyzed without exception, and the
    log of the walk is the logs of these analyses one after the other. *)
Theorem walk_offers_scan_results
    (extension_filter : list (list ascii) -> list ascii -> result bool)
    (analyze : list ascii -> bool -> W analysis) (fs : filesystem)
    (rootpath : list ascii) (recursive : bool)
    (n : Z) (exts : list (list ascii)) (quiet : bool) (h : list analysis) :
  outcome (walk_through_directory extension_filter analyze fs rootpath
             recursive n exts quiet) = Ok h ->
  exists paths results,
    offer_all n results = Ok h
    /\ Forall2 (fun p r => outcome (analyze p quiet) = Ok r) paths results
    /\ scanned (walk_through_directory extension_filter analyze fs rootpath
                  recursive n exts quiet)
       = concat (map (fun p => scanned (analyze p quiet)) paths)
    /\ Forall (fun p => exists dirpath f,
                 listed fs rootpath recursive dirpath f
                 /\ extension_filter exts f = Ok true
                 /\ p = os_path_join dirpath f) paths.
Proof. apply walk_offers. Qed.

Lemma walk_offers_scan_results_witness :
  outcome (walk_through_directory example_filter
             (example_analyze example_tree) example_tree (s2l "src")
             false 2 [s2l "c"; s2l "h"] true)
  = Ok [example_result (s2l "{{}}") (s2l "src/a.c");
        example_result (s2l "{{{{}}}}") (s2l "src/bb.h")]
  /\ exists paths results,
      offer_all 2 results
      = Ok [example_result (s2l "{{}}") (s2l "src/a.c");
            example_result (s2l "{{{{}}}}") (s2l "src/bb.h")]
      /\ Forall2 (fun p r =>
                    outcome (example_analyze example_tree p true) = Ok r)
           paths results
      /\ scanned (walk_through_directory example_filter
                    (example_analyze example_tree) example_tree (s2l "src")
                    false 2 [s2l "c"; s2l "h"] true)
         = concat (map (fun p => scanned (example_analyze example_tree p true))
                     paths)
      /\ Forall (fun p => exists dirpath f,
                   listed example_tree (s2l "src") false dirpath f
                   /\ example_filter [s2l "c"; s2l "h"] f = Ok true
                   /\ p = os_path_join dirpath f) paths.
Proof.
  split; [reflexivity|].
  apply (walk_offers_scan_results example_filter
           (example_analyze example_tree) example_tree (s2l "src") false 2
           [s2l "c"; s2l "h"] true).
  reflexivity.
Defined.

(** X17: when the analyzer logs no other file than the one it is given, as
    [analyze_file] does, every file in the log of the walk, returned or
    not, is a file that the walk came across and that the filter selected;
    without recursion it is an entry of the root directory. *)
Theorem walk_scans_only_selected
    (extension_filter : list (list ascii) -> list ascii -> result bool)
    (analyze : list ascii -> bool -> W analysis) (fs : filesystem)
    (rootpath : list ascii) (recursive : bool)
    (n : Z) (exts : list (list ascii)) (quiet : bool) (p : list ascii) :
  (forall p q x, x ∈ scanned (analyze p q) -> x = p) ->
  p ∈ scanned (walk_through_directory extension_filter analyze fs rootpath
                 recursive n exts quiet) ->
  exists dirpath f,
    listed fs rootpath recursive dirpath f
    /\ extension_filter exts f = Ok true
    /\ p = os_path_join dirpath f.
Proof. apply walk_scanned. Qed.

Lemma example_analyze_log fs p q x :
  x ∈ scanned (example_analyze fs p q) -> x = p.
Proof.
  unfold example_analyze, mbind, W_bind, wbind, lift, scanning. simpl.
  destruct (open_read fs p); simpl; intros Hx.
  - by apply list_elem_of_singleton in Hx.
  - by apply elem_of_nil in Hx.
Qed.

Lemma walk_scans_only_selected_witness :
  (forall p q x,
      x ∈ scanned (example_analyze example_tree_broken p q) -> x = p)
  /\ (s2l "src/a.c"
        ∈ scanned (walk_through_directory example_filter
                     (example_analyze example_tree_broken)
                     example_tree_broken (s2l "src") true 2
                     [s2l "c"; s2l "h"] true))
  /\ exists dirpath f,
      listed example_tree_broken (s2l "src") true dirpath f
      /\ example_filter [s2l "c"; s2l "h"] f = Ok true
      /\ s2l "src/a.c" = os_path_join dirpath f.
Proof.
  split; [apply example_analyze_log|].
  split; [vm_compute; apply list_elem_of_here|].
  apply (walk_scans_only_selected example_filter
           (example_analyze example_tree_broken) example_tree_broken
           (s2l "src") true 2 [s2l "c"; s2l "h"] true (s2l "src/a.c")).
  - apply example_analyze_log.
  - vm_compute. apply list_elem_of_here.
Defined.

(** X18: if the analysis of one file that the walk comes across and the
    filter selects raises, because the file cannot be read or for another
    reason, the walk raises and returns no heap, whatever the other files
    are. *)
Theorem walk_aborts_on_failing_file
    (extension_filter : list (list ascii) -> list ascii -> result bool)
    (analyze : list ascii -> bool -> W analysis) (fs : filesystem)
    (rootpath : list ascii) (recursive : bool)
    (n : Z) (exts : list (list ascii)) (quiet : bool)
    (dirpath f : list ascii) (e : exn) :
  listed fs rootpath recursive dirpath f ->
  extension_filter exts f = Ok true ->
  outcome (analyze (os_path_join dirpath f) quiet) = Raise e ->
  exists e',
    outcome (walk_through_directory extension_filter analyze fs rootpath
               recursive n exts quiet) = Raise e'.
Proof.
  intros Hlisted Hsel Hfail.
  destruct (outcome (walk_through_directory _ _ _ _ _ _ _ _))
    as [h|e'] eqn:Hw; [|by exists e'].
  destruct (walk_returns _ _ _ _ _ _ _ _ _ Hw _ _ Hlisted)
    as (b & Hb & Hr).
  rewrite Hsel in Hb. simplify_eq.
  destruct (Hr eq_refl) as [r Hr']. by rewrite Hfail in Hr'.
Qed.

Lemma walk_aborts_on_failing_file_witness :
  listed example_tree_broken (s2l "src") true (s2l "src") (s2l "d.c")
  /\ example_filter [s2l "c"; s2l "h"] (s2l "d.c") = Ok true
  /\ outcome (example_analyze example_tree_broken
                (os_path_join (s2l "src") (s2l "d.c")) true) = Raise IOError
  /\ walk_through_directory example_filter
       (example_analyze example_tree_broken) example_tree_broken
       (s2l "src") true 2 [s2l "c"; s2l "h"] true
     = MkW [s2l "src/a.c"] (Raise IOError)
  /\ exists e',
      outcome (walk_through_directory example_filter
                 (example_analyze example_tree_broken) example_tree_broken
                 (s2l "src") true 2 [s2l "c"; s2l "h"] true) = Raise e'.
Proof.
  assert (Hlisted : listed example_tree_broken (s2l "src") true (s2l "src")
                      (s2l "d.c")).
  { exists [], [s2l "a.c"; s2l "d.c"; s2l "c.c"]. split.
    - apply list_elem_of_here.
    - apply list_elem_of_further, list_elem_of_here. }
  split; [exact Hlisted|]. split; [reflexivity|]. split; [reflexivity|].
  split; [reflexivity|].
  apply (walk_aborts_on_failing_file example_filter
           (example_analyze example_tree_broken) example_tree_broken
           (s2l "src") true 2 [s2l "c"; s2l "h"] true
           (s2l "src") (s2l "d.c") IOError).
  - exact Hlisted.
  - reflexivity.
  - reflexivity.
Defined.

(** X19: the heap that the walk returns holds at most [max 0 n] results,
    and it is a heap: its first result is not greater than any other. *)
Theorem walk_returns_at_most_n
    (extension_filter : list (list ascii) -> list ascii -> result bool)
    (analyze : list ascii -> bool -> W analysis) (fs : filesystem)
    (rootpath : list ascii) (recursive : bool)
    (n : Z) (exts : list (list ascii)) (quiet : bool) (h : list analysis) :
  outcome (walk_through_directory extension_filter analyze fs rootpath
             recursive n exts quiet) = Ok h ->
  Z.of_nat (length h) <= Z.max 0 n
  /\ is_heap h
  /\ forall r x, h !! 0%nat = Some r -> x ∈ h -> py_le r x.
Proof.
  intros Hw. split; [by eapply walk_length|].
  pose proof (walk_is_heap _ _ _ _ _ _ _ _ _ Hw) as Hh.
  split; [done|]. intros r x Hr Hx. by eapply heap_root_least.
Qed.

Lemma walk_returns_at_most_n_witness :
  outcome (walk_through_directory example_filter
             (example_analyze example_tree) example_tree (s2l "src")
             true 2 [s2l "c"; s2l "h"] true)
  = Ok [example_result (s2l "{{}}") (s2l "src/a.c");
        example_result (s2l "{{{{}}}}") (s2l "src/bb.h")]
  /\ Z.of_nat (length [example_result (s2l "{{}}") (s2l "src/a.c");
                       example_result (s2l "{{{{}}}}") (s2l "src/bb.h")])
     <= Z.max 0 2.
Proof.
  split; [reflexivity|].
  apply (walk_returns_at_most_n example_filter
           (example_analyze example_tree) example_tree (s2l "src") true 2
           [s2l "c"; s2l "h"] true).
  reflexivity.
Defined.

(** X20: the loop of [pretty_print_dir], on any heap and any [n], pops
    [min (len heap) n] results, none when [n] is not positive, and prints
    for each, in the order popped, the block of [print_result] followed by
    a blank line: the name, the rendering unless quiet, the histogram and
    the maximum depth.  The results printed are in non-decreasing order,
    and none is greater than a result left in the heap. *)
Theorem dir_prints_at_most_n (h : list analysis) (n : Z) (quiet : bool) :
  is_heap h ->
  exists results left,
    report h n quiet = Ok (flat_map (block quiet) results)
    /\ drain (length results) h = Ok results
    /\ length results = Z.to_nat (Z.min (Z.of_nat (length h)) n)
    /\ h ≡ₚ results ++ left
    /\ StronglySorted py_le results
    /\ Forall (fun r => Forall (py_le r) left) results.
Proof. apply report_spec. Qed.

Lemma example_heap_is_heap :
  is_heap [example_result (s2l "{}") (s2l "src/c.c");
           example_result (s2l "{{{{}}}}") (s2l "src/bb.h");
           example_result (s2l "{{}}") (s2l "src/a.c")].
Proof.
  apply (offer_all_heap 3
           [example_result (s2l "{{}}") (s2l "src/a.c");
            example_result (s2l "{{{{}}}}") (s2l "src/bb.h");
            example_result (s2l "{}") (s2l "src/c.c")]).
  reflexivity.
Qed.

Lemma dir_prints_at_most_n_witness :
  report [example_result (s2l "{}") (s2l "src/c.c");
          example_result (s2l "{{{{}}}}") (s2l "src/bb.h");
          example_result (s2l "{{}}") (s2l "src/a.c")] 2 false
  = Ok [PrintStr (s2l "src/c.c"); PrintStr (s2l "{}");
        PrintDepths [1]; PrintMaxDepth 1; PrintBlank;
        PrintStr (s2l "src/a.c"); PrintStr (s2l "{{}}");
        PrintDepths [1; 1]; PrintMaxDepth 2; PrintBlank]
  /\ exists results left,
      report [example_result (s2l "{}") (s2l "src/c.c");
              example_result (s2l "{{{{}}}}") (s2l "src/bb.h");
              example_result (s2l "{{}}") (s2l "src/a.c")] 2 false
      = Ok (flat_map (block false) results)
      /\ drain (length results)
           [example_result (s2l "{}") (s2l "src/c.c");
            example_result (s2l "{{{{}}}}") (s2l "src/bb.h");
            example_result (s2l "{{}}") (s2l "src/a.c")] = Ok results
      /\ length results = 2%nat
      /\ [example_result (s2l "{}") (s2l "src/c.c");
          example_result (s2l "{{{{}}}}") (s2l "src/bb.h");
          example_result (s2l "{{}}") (s2l "src/a.c")] ≡ₚ results ++ left
      /\ StronglySorted py_le results
      /\ Forall (fun r => Forall (py_le r) left) results.
Proof.
  split; [reflexivity|].
  apply (dir_prints_at_most_n
           [example_result (s2l "{}") (s2l "src/c.c");
            example_result (s2l "{{{{}}}}") (s2l "src/bb.h");
            example_result (s2l "{{}}") (s2l "src/a.c")] 2 false).
  apply example_heap_is_heap.
Defined.

(** [analyze_file] logs no other file than the one it is given. *)
Lemma analyze_file_log sep fs p q x :
  x ∈ scanned (analyze_file sep fs p q) -> x = p.
Proof.
  unfold analyze_file, mbind, W_bind, wbind, lift, scanning. simpl.
  destruct (open_read fs p); simpl; intros Hx.
  - by apply list_elem_of_singleton in Hx.
  - by apply elem_of_nil in Hx.
Qed.

(** Directory mode of the module as it is written, on the example
    directory: the filter selects [a.c], the first file, and its scan ends
    the run with [SyntaxError]. *)
Example dir_mode_as_written :
  pretty_print_dir file_extension_supported
    (analyze_file [newline] example_tree) example_tree
    (DirArgs (s2l "src") false (s2l "c,h") 3 true)
  = MkW [s2l "src/a.c"] (Raise SyntaxError).
Proof. reflexivity. Qed.

(** A root that does not exist: without recursion [os.listdir] raises
    before any file is analyzed; with recursion nothing is raised and
    nothing is printed. *)
Example missing_root_example :
  pretty_print_dir example_filter (example_analyze missing_tree)
    missing_tree (DirArgs (s2l "nowhere") true (s2l "c,h") 3 true)
  = MkW [] (Raise OSError)
  /\ pretty_print_dir example_filter (example_analyze missing_tree)
       missing_tree (DirArgs (s2l "nowhere") false (s2l "c,h") 3 true)
     = MkW [] (Ok []).
Proof. split; reflexivity. Qed.
